(** * mc_hash_rng: a stateless hash-based pseudo-random number generator

    Shallow embedding of [mc_hash_rng.h] (v0.5) and verification of its
    bounded sampler, numeric mappers and dimensional helpers.

    Conventions of the embedding:
    - [MCHR_UINT] is a [Z] in [0, 2^32); every C operation that can wrap
      is written with its reduction modulo 2^32 ([add32], [mul32], [shl32]).
    - [MCHR_INT] is a [Z] in [-2^31, 2^31); conversions between the two
      are [to_uint] and [to_int] (two's complement).
    - An index buffer (pointer, byte length [len]) is the list of the
      [len / 4] 32-bit words it designates.
    - [float] is IEEE-754 binary32 and [double] binary64, both taken from
      the parametric specification [SpecFloat] of the standard library.
    - [assert]s are preconditions: the functions are modelled as the
      release build executes them, and the theorems state the asserted
      conditions as hypotheses where they matter.
    - The unbounded [do ... while (1)] loop of the sampler takes a fuel
      argument (number of iterations of the outer loop it may run). *)

From Stdlib Require Import ZArith List Lia Bool.
From Stdlib Require Import Floats.SpecFloat.
Import ListNotations.
Local Open Scope Z_scope.

(** ** Machine integers *)

Definition wrap32 (x : Z) : Z := x mod 2 ^ 32.
Definition add32 (a b : Z) : Z := wrap32 (a + b).
Definition sub32 (a b : Z) : Z := wrap32 (a - b).
Definition mul32 (a b : Z) : Z := wrap32 (a * b).
Definition shl32 (a n : Z) : Z := wrap32 (Z.shiftl a n).

(** Reinterpretation of a 32-bit pattern as unsigned, resp. signed. *)
Definition to_uint (x : Z) : Z := x mod 2 ^ 32.
Definition to_int (x : Z) : Z := (x + 2 ^ 31) mod 2 ^ 32 - 2 ^ 31.

Definition is_uint (x : Z) : Prop := 0 <= x < 2 ^ 32.
Definition is_int (x : Z) : Prop := - 2 ^ 31 <= x < 2 ^ 31.

(** ** Outcome of a call

    [Undefined] is the behaviour of [__builtin_clz(0)]; [OutOfFuel] means
    the outer sampling loop was still running when the fuel ran out. *)

Inductive outcome (A : Type) : Type :=
| Returns (a : A)
| Undefined
| OutOfFuel.

Arguments Returns {A} a.
Arguments Undefined {A}.
Arguments OutOfFuel {A}.

Definition bind {A B : Type} (m : outcome A) (k : A -> outcome B) : outcome B :=
  match m with
  | Returns a => k a
  | Undefined => Undefined
  | OutOfFuel => OutOfFuel
  end.

Notation "x <- m ;; k" := (bind m (fun x => k))
  (at level 61, m at next level, right associativity).

(** [returns f v]: the call modelled by the fuel-indexed [f] returns [v]. *)
Definition returns {A : Type} (f : nat -> outcome A) (v : A) : Prop :=
  exists fuel, f fuel = Returns v.

(** ** Constants *)

Definition MCHR_PRIMES : list Z :=
  [ 1; 0x9E3779B1; 0x85EBCA77; 0xC2B2AE3D; 0x27D4EB2F; 0x165667B1 ].
Definition MCHR_PRIMES_LEN : Z := 6.
Definition MCHR_BIT_NOISE1 : Z := 0x68E31DA4.
Definition MCHR_BIT_NOISE2 : Z := 0xB5297A4D.
Definition MCHR_BIT_NOISE3 : Z := 0x1B56C4E9.

(** [MCHR_PRIMES[i]] *)
Definition prime (i : Z) : Z := nth (Z.to_nat i) MCHR_PRIMES 0.

(** ** The hash: [mchr_get_hash_uint] *)

(** The [while (len > 0)] loop: [ptr] is what is left of the buffer,
    [i] the rotating index into [MCHR_PRIMES], [num] the accumulator. *)
Fixpoint hash_words (ptr : list Z) (i : Z) (num : Z) : Z :=
  match ptr with
  | [] => num
  | w :: ptr' =>
      let i_next := (i + 1) mod MCHR_PRIMES_LEN in
      let num := add32 num (add32 (mul32 w (prime i)) (prime i_next)) in
      hash_words ptr' i_next num
  end.

(** The statements after the loop, from [num *= MCHR_BIT_NOISE1] on. *)
Definition hash_finish (num seed : Z) : Z :=
  let num := mul32 num MCHR_BIT_NOISE1 in
  let num := add32 num seed in
  let num := Z.lxor num (Z.shiftr num 8) in
  let num := add32 num MCHR_BIT_NOISE2 in
  let num := Z.lxor num (shl32 num 8) in
  let num := mul32 num MCHR_BIT_NOISE3 in
  let num := Z.lxor num (Z.shiftr num 8) in
  num.

Definition mchr_get_hash_uint (index_buffer : list Z) (seed : Z) : Z :=
  hash_finish (hash_words index_buffer 0 0) seed.

(** ** Leading zeros *)

(** [__builtin_clz]: undefined at 0. *)
Definition clz (value : Z) : option Z :=
  if value =? 0 then None else Some (31 - Z.log2 value).

(** The MSVC definition: [_BitScanReverse] yields the index of the highest
    set bit and fails at 0, where the function answers 32. *)
Definition clz_msvc (value : Z) : Z :=
  if value =? 0 then 32 else 31 - Z.log2 value.

(** ** The bounded sampler: [mchr_get_hash_uint_under_limit] *)

Section Sampler.

Variable index_buffer : list Z.
Variables upper_bound zeros bits mask : Z.

(** The inner [while (bits_left >= bits)] loop. It returns [Some result]
    when it returns from the function and [None] when it falls through.
    [n] bounds the number of iterations; [bits_left] of them at most are
    run when [bits] is positive, see [scan_windows_fuel]. *)
Fixpoint scan_windows (n : nat) (value bits_left : Z) : option Z :=
  match n with
  | O => None
  | S n' =>
      if bits_left >=? bits then
        let value := Z.shiftr value bits in
        let result := Z.land value mask in
        if result <? upper_bound then Some result
        else scan_windows n' value (bits_left - bits)
      else None
  end.

(** One pass of the [do] body: [inl result] when it returns, [inr seed']
    when it reaches the end of the body with the next seed. *)
Definition sample_step (seed : Z) : Z + Z :=
  let value := mchr_get_hash_uint index_buffer seed in
  let result := Z.land value mask in
  if result <? upper_bound then inl result
  else
    let bits_left := zeros in
    match scan_windows (Z.to_nat bits_left) value bits_left with
    | Some result => inl result
    | None => inr (add32 seed 1)
    end.

(** The [do ... while (1)] loop. *)
Fixpoint sample_loop (fuel : nat) (seed : Z) : outcome Z :=
  match fuel with
  | O => OutOfFuel
  | S fuel' =>
      match sample_step seed with
      | inl result => Returns result
      | inr seed' => sample_loop fuel' seed'
      end
  end.

End Sampler.

(** [CHAR_BIT * sizeof(MCHR_UINT) - zeros] and [0xFFFFFFFFU >> zeros]. *)
Definition window_bits (zeros : Z) : Z := 8 * 4 - zeros.
Definition window_mask (zeros : Z) : Z := Z.shiftr 0xFFFFFFFF zeros.

Definition mchr_get_hash_uint_under_limit
    (fuel : nat) (index_buffer : list Z) (seed upper_bound : Z) : outcome Z :=
  if upper_bound <? 2 then Returns 0
  else
    match clz upper_bound with
    | None => Undefined
    | Some zeros =>
        let bits := window_bits zeros in
        let mask := window_mask zeros in
        sample_loop index_buffer upper_bound zeros bits mask fuel seed
    end.

(** ** Floating point

    [float] is binary32 (24 bits of precision, exponents of infinities
    128) and [double] binary64 (53, 1024). *)

Definition f32_of_uint (n : Z) : spec_float := binary_normalize 24 128 n 0 false.
Definition f32_mul : spec_float -> spec_float -> spec_float := SFmul 24 128.
Definition f32_div : spec_float -> spec_float -> spec_float := SFdiv 24 128.
Definition f64_mul : spec_float -> spec_float -> spec_float := SFmul 53 1024.
Definition f64_sub : spec_float -> spec_float -> spec_float := SFsub 53 1024.

(** The literals [0.0], [1.0f], [1.0] and [2.0]. *)
Definition f32_zero : spec_float := S754_zero false.
Definition f32_one : spec_float := binary_normalize 24 128 1 0 false.
Definition f64_one : spec_float := binary_normalize 53 1024 1 0 false.
Definition f64_two : spec_float := binary_normalize 53 1024 2 0 false.

(** Conversions between [float] and [double] (round to nearest even). *)
Definition f64_of_f32 (x : spec_float) : spec_float :=
  match x with
  | S754_finite s m e => binary_round 53 1024 s m e
  | _ => x
  end.

Definition f32_of_f64 (x : spec_float) : spec_float :=
  match x with
  | S754_finite s m e => binary_round 24 128 s m e
  | _ => x
  end.

(** [x < y] on floats. *)
Definition f_lt (x y : spec_float) : bool := SFltb x y.

(** [f_scaled s x = Some n] when [x] is finite and [x * 2^s] is the
    integer [n]: the exact value of [x] is [n / 2^s]. *)
Definition f_scaled (s : Z) (x : spec_float) : option Z :=
  match x with
  | S754_zero _ => Some 0
  | S754_finite sg m e =>
      if 0 <=? e + s then Some (cond_Zopp sg (Zpos m * 2 ^ (e + s)))
      else if Zpos m mod 2 ^ (- (e + s)) =? 0
           then Some (cond_Zopp sg (Zpos m / 2 ^ (- (e + s))))
           else None
  | _ => None
  end.

Definition mchr_priv_uint_to_zero_one (num : Z) : spec_float :=
  let max_range := Z.shiftl 1 24 in
  if num >=? max_range then f32_of_f64 f64_one
  else
    let num := Z.land num (max_range - 1) in
    let result := f32_div (f32_mul (f32_of_uint num) f32_one) (f32_of_uint max_range) in
    result.

Definition mchr_priv_uint_to_neg_one_one (num : Z) : spec_float :=
  let max_range := Z.shiftl 1 25 in
  let num := Z.land num (max_range - 1) in
  let result := f32_div (f32_mul (f32_of_uint num) f32_one) (f32_of_uint max_range) in
  f32_of_f64 (f64_sub (f64_mul (f64_of_f32 result) f64_two) f64_one).

(** ** Buffer-based operations *)

Section BufferOps.

Variable fuel : nat.
Variable index_buffer : list Z.
Variable seed : Z.

Definition mchr_get_hash_uint_in_range (min max : Z) : outcome Z :=
  r <- mchr_get_hash_uint_under_limit fuel index_buffer seed
         (add32 (sub32 max min) 1) ;;
  Returns (add32 r min).

(** [max - min + 1] is computed on [int] (two's complement wrap-around),
    converted to [MCHR_UINT] for the call; the sum is unsigned and is
    converted back to [int] by the return. *)
Definition mchr_get_hash_int_in_range (min max : Z) : outcome Z :=
  r <- mchr_get_hash_uint_under_limit fuel index_buffer seed
         (to_uint (to_int (to_int (max - min) + 1))) ;;
  Returns (to_int (add32 r (to_uint min))).

Definition mchr_get_hash_zero_to_one : outcome spec_float :=
  result <- mchr_get_hash_uint_under_limit fuel index_buffer seed
              (Z.shiftl 1 24 + 1) ;;
  Returns (mchr_priv_uint_to_zero_one result).

Definition mchr_get_chance (probability_of_true : spec_float) : outcome bool :=
  x <- mchr_get_hash_zero_to_one ;;
  Returns (f_lt x probability_of_true).

Definition mchr_get_hash_neg_one_to_one : outcome spec_float :=
  result <- mchr_get_hash_uint_under_limit fuel index_buffer seed
              (Z.shiftl 1 25) ;;
  Returns (mchr_priv_uint_to_neg_one_one result).

End BufferOps.

(** ** Coordinate-based operations

    [MCHR_INT array[] = { posX, ... }] read through an [MCHR_UINT*]:
    the words of the buffer are the coordinates' bit patterns. *)

Definition pack (coords : list Z) : list Z := map to_uint coords.

Section CoordinateOps.

Variable fuel : nat.

Definition mchr_get_1d_hash_uint (pos seed : Z) : Z :=
  mchr_get_hash_uint (pack [pos]) seed.

Definition mchr_get_2d_hash_uint (posX posY seed : Z) : Z :=
  let array := pack [posX; posY] in
  mchr_get_hash_uint array seed.

Definition mchr_get_3d_hash_uint (posX posY posZ seed : Z) : Z :=
  let array := pack [posX; posY; posZ] in
  mchr_get_hash_uint array seed.

Definition mchr_get_4d_hash_uint (posX posY posZ posT seed : Z) : Z :=
  let array := pack [posX; posY; posZ; posT] in
  mchr_get_hash_uint array seed.

Definition mchr_get_1d_hash_uint_in_range (pos seed min max : Z) : outcome Z :=
  r <- mchr_get_hash_uint_under_limit fuel (pack [pos]) seed
         (add32 (sub32 max min) 1) ;;
  Returns (add32 r min).

Definition mchr_get_2d_hash_uint_in_range (posX posY seed min max : Z) : outcome Z :=
  let array := pack [posX; posY] in
  r <- mchr_get_hash_uint_under_limit fuel array seed
         (add32 (sub32 max min) 1) ;;
  Returns (add32 r min).

Definition mchr_get_3d_hash_uint_in_range (posX posY posZ seed min max : Z) : outcome Z :=
  let array := pack [posX; posY; posZ] in
  r <- mchr_get_hash_uint_under_limit fuel array seed
         (add32 (sub32 max min) 1) ;;
  Returns (add32 r min).

Definition mchr_get_4d_hash_uint_in_range (posX posY posZ posT seed min max : Z) : outcome Z :=
  let array := pack [posX; posY; posZ; posT] in
  r <- mchr_get_hash_uint_under_limit fuel array seed
         (add32 (sub32 max min) 1) ;;
  Returns (add32 r min).

Definition mchr_get_1d_hash_int_in_range (pos seed min max : Z) : outcome Z :=
  r <- mchr_get_hash_uint_under_limit fuel (pack [pos]) seed
         (to_uint (to_int (to_int (max - min) + 1))) ;;
  Returns (to_int (add32 r (to_uint min))).

Definition mchr_get_2d_hash_int_in_range (posX posY seed min max : Z) : outcome Z :=
  let array := pack [posX; posY] in
  r <- mchr_get_hash_uint_under_limit fuel array seed
         (to_uint (to_int (to_int (max - min) + 1))) ;;
  Returns (to_int (add32 r (to_uint min))).

Definition mchr_get_3d_hash_int_in_range (posX posY posZ seed min max : Z) : outcome Z :=
  let array := pack [posX; posY; posZ] in
  r <- mchr_get_hash_uint_under_limit fuel array seed
         (to_uint (to_int (to_int (max - min) + 1))) ;;
  Returns (to_int (add32 r (to_uint min))).

Definition mchr_get_4d_hash_int_in_range (posX posY posZ posT seed min max : Z) : outcome Z :=
  let array := pack [posX; posY; posZ; posT] in
  r <- mchr_get_hash_uint_under_limit fuel array seed
         (to_uint (to_int (to_int (max - min) + 1))) ;;
  Returns (to_int (add32 r (to_uint min))).

Definition mchr_get_1d_hash_zero_to_one (pos seed : Z) : outcome spec_float :=
  result <- mchr_get_hash_uint_under_limit fuel (pack [pos]) seed
              (Z.shiftl 1 24 + 1) ;;
  Returns (mchr_priv_uint_to_zero_one result).

Definition mchr_get_2d_hash_zero_to_one (posX posY seed : Z) : outcome spec_float :=
  let array := pack [posX; posY] in
  result <- mchr_get_hash_uint_under_limit fuel array seed
              (Z.shiftl 1 24 + 1) ;;
  Returns (mchr_priv_uint_to_zero_one result).

Definition mchr_get_3d_hash_zero_to_one (posX posY posZ seed : Z) : outcome spec_float :=
  let array := pack [posX; posY; posZ] in
  result <- mchr_get_hash_uint_under_limit fuel array seed
              (Z.shiftl 1 24 + 1) ;;
  Returns (mchr_priv_uint_to_zero_one result).

Definition mchr_get_4d_hash_zero_to_one (posX posY posZ posT seed : Z) : outcome spec_float :=
  let array := pack [posX; posY; posZ; posT] in
  result <- mchr_get_hash_uint_under_limit fuel array seed
              (Z.shiftl 1 24 + 1) ;;
  Returns (mchr_priv_uint_to_zero_one result).

Definition mchr_get_1d_chance (pos seed : Z) (probability_of_true : spec_float) : outcome bool :=
  x <- mchr_get_1d_hash_zero_to_one pos seed ;;
  Returns (f_lt x probability_of_true).

Definition mchr_get_2d_chance (posX posY seed : Z) (probability_of_true : spec_float) : outcome bool :=
  x <- mchr_get_2d_hash_zero_to_one posX posY seed ;;
  Returns (f_lt x probability_of_true).

Definition mchr_get_3d_chance (posX posY posZ seed : Z) (probability_of_true : spec_float) : outcome bool :=
  x <- mchr_get_3d_hash_zero_to_one posX posY posZ seed ;;
  Returns (f_lt x probability_of_true).

Definition mchr_get_4d_chance (posX posY posZ posT seed : Z) (probability_of_true : spec_float) : outcome bool :=
  x <- mchr_get_4d_hash_zero_to_one posX posY posZ posT seed ;;
  Returns (f_lt x probability_of_true).

Definition mchr_get_1d_hash_neg_one_to_one (pos seed : Z) : outcome spec_float :=
  result <- mchr_get_hash_uint_under_limit fuel (pack [pos]) seed
              (Z.shiftl 1 25) ;;
  Returns (mchr_priv_uint_to_neg_one_one result).

Definition mchr_get_2d_hash_neg_one_to_one (posX posY seed : Z) : outcome spec_float :=
  let array := pack [posX; posY] in
  result <- mchr_get_hash_uint_under_limit fuel array seed
              (Z.shiftl 1 25) ;;
  Returns (mchr_priv_uint_to_neg_one_one result).

Definition mchr_get_3d_hash_neg_one_to_one (posX posY posZ seed : Z) : outcome spec_float :=
  let array := pack [posX; posY; posZ] in
  result <- mchr_get_hash_uint_under_limit fuel array seed
              (Z.shiftl 1 25) ;;
  Returns (mchr_priv_uint_to_neg_one_one result).

Definition mchr_get_4d_hash_neg_one_to_one (posX posY posZ posT seed : Z) : outcome spec_float :=
  let array := pack [posX; posY; posZ; posT] in
  result <- mchr_get_hash_uint_under_limit fuel array seed
              (Z.shiftl 1 25) ;;
  Returns (mchr_priv_uint_to_neg_one_one result).

End CoordinateOps.

(** ** The mixer as the specification words it

    A rotating index [i] into a table of six constants (the first is 1);
    for each word, [accumulator += w * table[i] + table[(i+1) mod 6]] and
    [i] advances; then the seed is added and the avalanche finalizer is
    applied. Everything is modulo 2^32. The finalizer's two constants are
    parameters here. *)

Definition spec_table : list Z := MCHR_PRIMES.
Definition spec_table_len : Z := Z.of_nat (length spec_table).
Definition spec_table_at (i : Z) : Z := nth (Z.to_nat i) spec_table 0.

Definition spec_consume (st : Z * Z) (w : Z) : Z * Z :=
  let '(accumulator, i) := st in
  (wrap32 (accumulator + (w * spec_table_at i
                          + spec_table_at ((i + 1) mod spec_table_len))),
   (i + 1) mod spec_table_len).

Definition spec_accumulate (words : list Z) : Z :=
  fst (fold_left spec_consume words (0, 0)).

Definition spec_avalanche (add_const mul_const x : Z) : Z :=
  let x := Z.lxor x (Z.shiftr x 8) in
  let x := wrap32 (x + add_const) in
  let x := Z.lxor x (wrap32 (Z.shiftl x 8)) in
  let x := wrap32 (x * mul_const) in
  Z.lxor x (Z.shiftr x 8).

(** The mixer of the specification: the seed is added to the accumulator
    as the words left it. *)
Definition spec_mix (add_const mul_const : Z) (words : list Z) (seed : Z) : Z :=
  spec_avalanche add_const mul_const (wrap32 (spec_accumulate words + seed)).

(** The same with the accumulator multiplied by [pre_const] before the
    seed is added. *)
Definition spec_mix_scaled (pre_const add_const mul_const : Z)
    (words : list Z) (seed : Z) : Z :=
  spec_avalanche add_const mul_const
    (wrap32 (wrap32 (spec_accumulate words * pre_const) + seed)).

(** Byte length of an index buffer. *)
Definition byte_len (index_buffer : list Z) : Z :=
  4 * Z.of_nat (length index_buffer).

(** ** A seed on which the sampler accepts

    [hash_finish] maps the accumulator [num] and the seed below to 0: the
    addition of the seed yields [0x4A9C19AA], which the finalizer sends
    to 0. *)
Definition zero_seed (num : Z) : Z :=
  wrap32 (0x4A9C19AA - mul32 num MCHR_BIT_NOISE1).

(** An operation never runs into [__builtin_clz(0)]. *)
Definition never_undefined {A : Type} (f : nat -> outcome A) : Prop :=
  forall fuel, f fuel <> Undefined.

(** ** The finalizer and its inverse

    [hash_avalanche] is the part of [mchr_get_hash_uint] that follows
    [num += seed]; the rest of this section undoes it step by step. *)

(** The statements of [mchr_get_hash_uint] after [num += seed]. *)
Definition hash_avalanche (num : Z) : Z :=
  let num := Z.lxor num (Z.shiftr num 8) in
  let num := add32 num MCHR_BIT_NOISE2 in
  let num := Z.lxor num (shl32 num 8) in
  let num := mul32 num MCHR_BIT_NOISE3 in
  let num := Z.lxor num (Z.shiftr num 8) in
  num.

(** Inverses of the steps of [hash_avalanche] on 32-bit values. *)
Definition xor_shr (c x : Z) : Z := Z.lxor x (Z.shiftr x c).
Definition xor_shl (c x : Z) : Z := Z.lxor x (shl32 x c).
Definition undo_xor_shr8 (y : Z) : Z := xor_shr 8 (xor_shr 8 (xor_shr 8 y)).
Definition undo_xor_shl8 (y : Z) : Z := xor_shl 8 (xor_shl 8 (xor_shl 8 y)).
(** [MCHR_BIT_NOISE3 * 0xAE4E5359 = 1] modulo 2^32. *)
Definition MCHR_BIT_NOISE3_INV : Z := 0xAE4E5359.

Definition hash_unavalanche (v : Z) : Z :=
  let v := undo_xor_shr8 v in
  let v := mul32 v MCHR_BIT_NOISE3_INV in
  let v := undo_xor_shl8 v in
  let v := sub32 v MCHR_BIT_NOISE2 in
  undo_xor_shr8 v.

(** The seed on which [index_buffer] hashes to [v]. *)
Definition seed_of_hash (index_buffer : list Z) (v : Z) : Z :=
  sub32 (hash_unavalanche v) (mul32 (hash_words index_buffer 0 0) MCHR_BIT_NOISE1).

(** What the hash keeps of the accumulator: its low 30 bits. *)
Definition hash_key (index_buffer : list Z) : Z :=
  hash_words index_buffer 0 0 mod 2 ^ 30.

(** The [j]-th window of [bits] bits of a hash value, from the low end. *)
Definition window (bits mask value j : Z) : Z :=
  Z.land (Z.shiftr value (j * bits)) mask.

(** ** Normal numbers and the conversion of draws to [float] *)

(** [m * 2^c] on positive numbers. *)
Definition pshift (m : positive) (c : Z) : positive :=
  match c with
  | Zpos q => Pos.iter xO m q
  | _ => m
  end.

(** The normal number of sign [s] and value [a * 2^e] in the format of
    precision [prec], for [a] of at most [prec] digits. *)
Definition canon (prec : Z) (s : bool) (a : positive) (e : Z) : spec_float :=
  let c := prec - Zpos (digits2_pos a) in
  S754_finite s (pshift a c) (e - c).

(** The integer that [(float) k] holds, for [0 <= k < 2^25]: [k] itself
    when it has at most 24 bits or is even, else the nearest multiple of
    4 (round to nearest, ties to even). *)
Definition uint_as_float (k : Z) : Z :=
  if k <? 2 ^ 24 then k
  else if Z.even k then k
  else 4 * ((k + 1) / 4).

(** The literal [-1.0f]. *)
Definition f32_minus_one : spec_float := SFopp f32_one.

(** What the words add to the accumulator, before any reduction, when
    the rotating index starts at [i]. *)
Fixpoint words_sum (ptr : list Z) (i : Z) : Z :=
  match ptr with
  | [] => 0
  | w :: ptr' =>
      let i_next := (i + 1) mod MCHR_PRIMES_LEN in
      w * prime i + prime i_next + words_sum ptr' i_next
  end.

(** * Properties *)

(** ** Machine integers *)

Lemma wrap32_range (x : Z) : 0 <= wrap32 x < 2 ^ 32.
Proof. unfold wrap32. apply Z.mod_pos_bound. lia. Qed.

Lemma wrap32_small (x : Z) : 0 <= x < 2 ^ 32 -> wrap32 x = x.
Proof. intros H. unfold wrap32. now apply Z.mod_small. Qed.

Lemma wrap32_idem (x : Z) : wrap32 (wrap32 x) = wrap32 x.
Proof. apply wrap32_small, wrap32_range. Qed.

Lemma wrap32_add_l (a b : Z) : wrap32 (wrap32 a + b) = wrap32 (a + b).
Proof. unfold wrap32. apply Zplus_mod_idemp_l. Qed.

Lemma wrap32_add_r (a b : Z) : wrap32 (a + wrap32 b) = wrap32 (a + b).
Proof. unfold wrap32. apply Zplus_mod_idemp_r. Qed.

(** ** The mixer *)

(** The loop of the code and the fold of the specification run in step. *)
Lemma spec_consume_step (num i w : Z) :
  spec_consume (num, i) w
  = (add32 num (add32 (mul32 w (prime i)) (prime ((i + 1) mod MCHR_PRIMES_LEN))),
     (i + 1) mod MCHR_PRIMES_LEN).
Proof.
  unfold spec_consume, add32, mul32, prime, spec_table_at, spec_table.
  change spec_table_len with MCHR_PRIMES_LEN.
  f_equal.
  generalize (nth (Z.to_nat i) MCHR_PRIMES 0)
             (nth (Z.to_nat ((i + 1) mod MCHR_PRIMES_LEN)) MCHR_PRIMES 0).
  intros p q. generalize (w * p). intros wp.
  unfold wrap32. change (2 ^ 32) with 4294967296.
  Z.div_mod_to_equations. lia.
Qed.

Lemma hash_words_fold (ptr : list Z) :
  forall i num,
    hash_words ptr i num = fst (fold_left spec_consume ptr (num, i)).
Proof.
  induction ptr as [| w ptr IH]; intros i num.
  - reflexivity.
  - cbn [hash_words fold_left]. rewrite spec_consume_step. apply IH.
Qed.

Lemma hash_words_accumulate (index_buffer : list Z) :
  hash_words index_buffer 0 0 = spec_accumulate index_buffer.
Proof. apply hash_words_fold. Qed.

Lemma hash_finish_avalanche (num seed : Z) :
  hash_finish num seed
  = spec_avalanche MCHR_BIT_NOISE2 MCHR_BIT_NOISE3
      (wrap32 (wrap32 (num * MCHR_BIT_NOISE1) + seed)).
Proof. reflexivity. Qed.

(** C3, as amended: the code computes the mixer of the specification with
    one more step, the multiplication of the accumulator by
    [MCHR_BIT_NOISE1 = 0x68E31DA4] between the last word and the addition of
    the seed; the finalizer adds [0xB5297A4D] and multiplies by
    [0x1B56C4E9]. *)
Theorem C3_hash_uint_is_scaled_mixer (index_buffer : list Z) (seed : Z) :
  mchr_get_hash_uint index_buffer seed
  = spec_mix_scaled 0x68E31DA4 0xB5297A4D 0x1B56C4E9 index_buffer seed.
Proof.
  unfold mchr_get_hash_uint, spec_mix_scaled.
  rewrite hash_finish_avalanche, hash_words_accumulate.
  reflexivity.
Qed.

(** C3, as stated, fails: on the one-word buffer [0] with seed 0 the code
    returns 0x6C749B68 and the mixer without the multiplication 0xFC158A7E. *)
Lemma C3_counterexample :
  mchr_get_hash_uint [0] 0 = 0x6C749B68
  /\ spec_mix MCHR_BIT_NOISE2 MCHR_BIT_NOISE3 [0] 0 = 0xFC158A7E
  /\ mchr_get_hash_uint [0] 0 <> spec_mix MCHR_BIT_NOISE2 MCHR_BIT_NOISE3 [0] 0.
Proof. repeat split. vm_compute. discriminate. Qed.

(** No choice of the finalizer's constants repairs the statement: the
    mixer of the specification depends on accumulator and seed through
    their sum only, the code does not. *)
Lemma spec_mix_any_constants_differs (add_const mul_const : Z) :
  spec_mix add_const mul_const [0x61C8864F] 1
  = spec_mix add_const mul_const [0x61C88650] 0
  /\ mchr_get_hash_uint [0x61C8864F] 1 <> mchr_get_hash_uint [0x61C88650] 0.
Proof.
  split.
  - reflexivity.
  - vm_compute. discriminate.
Qed.

(** ** Leading zeros, window width and mask *)

Lemma clz_nonzero (value : Z) :
  value <> 0 -> clz value = Some (31 - Z.log2 value).
Proof.
  intros H. unfold clz. destruct (Z.eqb_spec value 0); [contradiction | reflexivity].
Qed.

Lemma clz_agrees_msvc (value zeros : Z) :
  clz value = Some zeros -> clz_msvc value = zeros.
Proof.
  unfold clz, clz_msvc. destruct (value =? 0); congruence.
Qed.

Lemma log2_uint_range (value : Z) :
  2 <= value < 2 ^ 32 -> 1 <= Z.log2 value <= 31.
Proof.
  intros [Hlo Hhi]. split.
  - change 1 with (Z.log2 2). now apply Z.log2_le_mono.
  - assert (Z.log2 value < 32) by (apply Z.log2_lt_pow2; lia). lia.
Qed.

Lemma window_mask_ones (zeros : Z) :
  0 <= zeros <= 32 -> window_mask zeros = 2 ^ window_bits zeros - 1.
Proof.
  intros H. unfold window_mask, window_bits.
  change 0xFFFFFFFF with (Z.ones 32).
  rewrite Z.shiftr_div_pow2, Z.ones_div_pow2, Z.ones_equiv by lia.
  change (8 * 4) with 32. lia.
Qed.

Lemma window_mask_nonneg (zeros : Z) : 0 <= window_mask zeros.
Proof. unfold window_mask. apply Z.shiftr_nonneg. lia. Qed.

(** ** The sampling loop *)

Section SamplerFacts.

Variable index_buffer : list Z.
Variables upper_bound zeros bits mask : Z.
Hypothesis mask_nonneg : 0 <= mask.

Local Abbreviation scan := (scan_windows upper_bound bits mask).
Local Abbreviation step := (sample_step index_buffer upper_bound zeros bits mask).
Local Abbreviation loop := (sample_loop index_buffer upper_bound zeros bits mask).

Lemma scan_windows_range (n : nat) :
  forall value bits_left result,
    scan n value bits_left = Some result -> 0 <= result < upper_bound.
Proof.
  induction n as [| n IH]; intros value bits_left result; cbn.
  - discriminate.
  - destruct (bits_left >=? bits); [| discriminate].
    destruct (Z.ltb_spec (Z.land (Z.shiftr value bits) mask) upper_bound) as [Hlt | Hge].
    + intros [= <-]. split; [| exact Hlt].
      apply Z.land_nonneg. now right.
    + apply IH.
Qed.

Lemma sample_step_range (seed result : Z) :
  step seed = inl result -> 0 <= result < upper_bound.
Proof.
  unfold sample_step.
  destruct (Z.ltb_spec (Z.land (mchr_get_hash_uint index_buffer seed) mask) upper_bound)
    as [Hlt | Hge].
  - intros [= <-]. split; [| exact Hlt]. apply Z.land_nonneg. now right.
  - destruct (scan_windows _ _ _ _ _ _) as [r |] eqn:Hscan; [| discriminate].
    intros [= <-]. eapply scan_windows_range. exact Hscan.
Qed.

Lemma sample_step_next (seed seed' : Z) :
  step seed = inr seed' -> seed' = add32 seed 1.
Proof.
  unfold sample_step.
  destruct (_ <? upper_bound); [discriminate |].
  destruct (scan_windows _ _ _ _ _ _); [discriminate |].
  now intros [= <-].
Qed.

Lemma sample_step_accepts (seed : Z) :
  Z.land (mchr_get_hash_uint index_buffer seed) mask < upper_bound ->
  exists result, step seed = inl result.
Proof.
  intros H. unfold sample_step.
  apply Z.ltb_lt in H. rewrite H. eauto.
Qed.

Lemma sample_loop_range (fuel : nat) :
  forall seed result,
    loop fuel seed = Returns result -> 0 <= result < upper_bound.
Proof.
  induction fuel as [| fuel IH]; intros seed result; cbn.
  - discriminate.
  - destruct (sample_step _ _ _ _ _ seed) as [r | seed'] eqn:Hstep.
    + intros [= <-]. eapply sample_step_range. exact Hstep.
    + apply IH.
Qed.

Lemma sample_loop_not_undefined (fuel : nat) :
  forall seed, loop fuel seed <> Undefined.
Proof.
  induction fuel as [| fuel IH]; intros seed; cbn.
  - discriminate.
  - destruct (sample_step _ _ _ _ _ seed); [discriminate | apply IH].
Qed.

(** More fuel does not change a result. *)
Lemma sample_loop_fuel_mono (fuel : nat) :
  forall fuel' seed result,
    (fuel <= fuel')%nat ->
    loop fuel seed = Returns result -> loop fuel' seed = Returns result.
Proof.
  induction fuel as [| fuel IH]; intros fuel' seed result Hle; cbn.
  - discriminate.
  - destruct fuel' as [| fuel']; [lia |]. cbn.
    destruct (sample_step _ _ _ _ _ seed); [trivial |].
    apply IH. lia.
Qed.

(** The bound [Z.to_nat zeros] on the iterations of the inner loop is
    never reached: with a positive width, a larger one changes nothing. *)
Lemma scan_windows_fuel (n : nat) :
  forall n' value bits_left,
    0 < bits -> (Z.to_nat bits_left <= n)%nat -> (n <= n')%nat ->
    scan n value bits_left = scan n' value bits_left.
Proof.
  induction n as [| n IH]; intros n' value bits_left Hbits Hn Hle.
  - destruct n' as [| n']; [reflexivity |]. cbn.
    destruct (Z.geb_spec bits_left bits); [lia | reflexivity].
  - destruct n' as [| n']; [lia |]. cbn.
    destruct (Z.geb_spec bits_left bits); [| reflexivity].
    destruct (_ <? upper_bound); [reflexivity |].
    apply IH; lia.
Qed.

(** The loop returns at the latest on the first seed whose hash passes
    the first test. *)
Lemma sample_loop_reaches (n : nat) :
  forall seed,
    Z.land (mchr_get_hash_uint index_buffer (seed + Z.of_nat n)) mask < upper_bound ->
    (forall a b, wrap32 a = wrap32 b ->
                 mchr_get_hash_uint index_buffer a = mchr_get_hash_uint index_buffer b) ->
    exists result, loop (S n) seed = Returns result.
Proof.
  induction n as [| n IH]; intros seed Hacc Hcongr.
  - rewrite Z.add_0_r in Hacc.
    destruct (sample_step_accepts seed Hacc) as [r Hr].
    exists r. cbn. now rewrite Hr.
  - cbn [sample_loop].
    destruct (step seed) as [r | seed'] eqn:Hstep.
    + now exists r.
    + apply sample_step_next in Hstep. subst seed'.
      apply IH; [| exact Hcongr].
      rewrite (Hcongr _ (seed + Z.of_nat (S n))); [exact Hacc |].
      unfold add32. rewrite wrap32_add_l. f_equal. lia.
Qed.

End SamplerFacts.

(** ** The hash as a function of the seed *)

Lemma hash_seed_congr (index_buffer : list Z) (a b : Z) :
  wrap32 a = wrap32 b ->
  mchr_get_hash_uint index_buffer a = mchr_get_hash_uint index_buffer b.
Proof.
  intros H. unfold mchr_get_hash_uint, hash_finish. cbv zeta.
  set (num := mul32 (hash_words index_buffer 0 0) MCHR_BIT_NOISE1).
  assert (E : add32 num a = add32 num b).
  { unfold add32. now rewrite <- (wrap32_add_r num a), H, wrap32_add_r. }
  rewrite E. reflexivity.
Qed.

Lemma hash_finish_zero_seed (num : Z) : hash_finish num (zero_seed num) = 0.
Proof.
  unfold hash_finish, zero_seed. cbv zeta.
  assert (E : add32 (mul32 num MCHR_BIT_NOISE1)
                    (wrap32 (0x4A9C19AA - mul32 num MCHR_BIT_NOISE1))
              = 0x4A9C19AA).
  { unfold add32. rewrite wrap32_add_r.
    replace (mul32 num MCHR_BIT_NOISE1 + (0x4A9C19AA - mul32 num MCHR_BIT_NOISE1))
      with 0x4A9C19AA by ring.
    reflexivity. }
  rewrite E. reflexivity.
Qed.

(** ** The bounded sampler *)

Lemma under_limit_degenerate (fuel : nat) (index_buffer : list Z) (seed upper_bound : Z) :
  upper_bound < 2 ->
  mchr_get_hash_uint_under_limit fuel index_buffer seed upper_bound = Returns 0.
Proof.
  intros H. unfold mchr_get_hash_uint_under_limit.
  apply Z.ltb_lt in H. now rewrite H.
Qed.

Lemma under_limit_range (fuel : nat) (index_buffer : list Z) (seed upper_bound r : Z) :
  2 <= upper_bound ->
  mchr_get_hash_uint_under_limit fuel index_buffer seed upper_bound = Returns r ->
  0 <= r < upper_bound.
Proof.
  intros Hub. unfold mchr_get_hash_uint_under_limit.
  destruct (Z.ltb_spec upper_bound 2); [lia |].
  destruct (clz upper_bound) as [zeros |]; [| discriminate].
  apply sample_loop_range, window_mask_nonneg.
Qed.

Lemma under_limit_not_undefined (fuel : nat) (index_buffer : list Z) (seed upper_bound : Z) :
  mchr_get_hash_uint_under_limit fuel index_buffer seed upper_bound <> Undefined.
Proof.
  unfold mchr_get_hash_uint_under_limit.
  destruct (Z.ltb_spec upper_bound 2); [discriminate |].
  rewrite clz_nonzero by lia.
  apply sample_loop_not_undefined.
Qed.

Lemma under_limit_fuel_mono (fuel fuel' : nat) (index_buffer : list Z) (seed upper_bound r : Z) :
  (fuel <= fuel')%nat ->
  mchr_get_hash_uint_under_limit fuel index_buffer seed upper_bound = Returns r ->
  mchr_get_hash_uint_under_limit fuel' index_buffer seed upper_bound = Returns r.
Proof.
  intros Hle. unfold mchr_get_hash_uint_under_limit.
  destruct (upper_bound <? 2); [trivial |].
  destruct (clz upper_bound); [| trivial].
  now apply sample_loop_fuel_mono.
Qed.

(** The sampler returns on every input: some seed of the 2^32 the loop
    runs through hashes to 0, which every bound of 2 or more accepts. *)
Lemma under_limit_total (index_buffer : list Z) (seed upper_bound : Z) :
  exists fuel r,
    mchr_get_hash_uint_under_limit fuel index_buffer seed upper_bound = Returns r.
Proof.
  unfold mchr_get_hash_uint_under_limit.
  destruct (Z.ltb_spec upper_bound 2) as [Hlt | Hge].
  - exists O, 0. reflexivity.
  - rewrite clz_nonzero by lia.
    set (target := zero_seed (hash_words index_buffer 0 0)).
    set (n := Z.to_nat (wrap32 (target - seed))).
    exists (S n).
    apply sample_loop_reaches; [| apply hash_seed_congr].
    rewrite (hash_seed_congr _ _ target).
    + unfold mchr_get_hash_uint. subst target.
      rewrite hash_finish_zero_seed, Z.land_0_l. lia.
    + subst n. rewrite Z2Nat.id by apply wrap32_range.
      rewrite wrap32_add_r. f_equal. ring.
Qed.

(** The sampler is a function of its arguments: it returns (with enough
    fuel) and the fuel has no part in the value. *)
Lemma under_limit_returns_unique (index_buffer : list Z) (seed upper_bound : Z) :
  exists r,
    returns (fun fuel =>
               mchr_get_hash_uint_under_limit fuel index_buffer seed upper_bound) r
    /\ forall r',
         returns (fun fuel =>
                    mchr_get_hash_uint_under_limit fuel index_buffer seed upper_bound) r' ->
         r' = r.
Proof.
  destruct (under_limit_total index_buffer seed upper_bound) as (fuel & r & Hr).
  exists r. split; [now exists fuel |].
  intros r' [fuel' Hr'].
  apply (under_limit_fuel_mono fuel (Nat.max fuel fuel')) in Hr; [| lia].
  apply (under_limit_fuel_mono fuel' (Nat.max fuel fuel')) in Hr'; [| lia].
  congruence.
Qed.

(** In the inner loop the shift [value >>= bits] is by less than the width
    of [MCHR_UINT]: the loop runs only when [bits <= zeros = 32 - bits]. *)
Lemma inner_shift_below_width (zeros : Z) :
  zeros >= window_bits zeros -> window_bits zeros <= 16.
Proof. unfold window_bits. lia. Qed.

(** C1: with a bound of 2 or more, every value the bounded sampler returns
    is at least 0 and below the bound; and it does return, on every index
    buffer and seed. *)
Theorem C1_under_limit_below_bound (index_buffer : list Z) (seed upper_bound : Z) :
  2 <= upper_bound ->
  (exists fuel r,
      mchr_get_hash_uint_under_limit fuel index_buffer seed upper_bound = Returns r)
  /\ (forall fuel r,
        mchr_get_hash_uint_under_limit fuel index_buffer seed upper_bound = Returns r ->
        0 <= r < upper_bound).
Proof.
  intros Hub. split.
  - apply under_limit_total.
  - intros fuel r. now apply under_limit_range.
Qed.

Lemma C1_witness :
  2 <= 10
  /\ mchr_get_hash_uint_under_limit 1 [130; 23] 0 10 = Returns 6
  /\ 0 <= 6 < 10.
Proof.
  assert (H : 2 <= 10) by lia.
  split; [exact H |]. split; [reflexivity |].
  apply (proj2 (C1_under_limit_below_bound [130; 23] 0 10 H) 1%nat 6).
  reflexivity.
Defined.

(** C4: for a bound [upper_bound >= 2], [bits = 32 - clz(upper_bound)] is
    the least width [b] with [2^b - 1 >= upper_bound], the mask
    [0xFFFFFFFF >> clz(upper_bound)] is [2^bits - 1], and
    [2^(bits-1) <= upper_bound], that is [upper_bound / 2^bits >= 1/2]. *)
Theorem C4_window_bits_minimal (upper_bound : Z) :
  2 <= upper_bound < 2 ^ 32 ->
  exists zeros,
    clz upper_bound = Some zeros
    /\ upper_bound <= 2 ^ window_bits zeros - 1
    /\ (forall b, 0 <= b -> upper_bound <= 2 ^ b - 1 -> window_bits zeros <= b)
    /\ window_mask zeros = 2 ^ window_bits zeros - 1
    /\ 2 ^ (window_bits zeros - 1) <= upper_bound
    /\ 2 ^ window_bits zeros <= 2 * upper_bound.
Proof.
  intros Hub.
  pose proof (log2_uint_range upper_bound Hub) as Hlog.
  destruct (Z.log2_spec upper_bound ltac:(lia)) as [Hlo Hhi].
  exists (31 - Z.log2 upper_bound).
  assert (Hbits : window_bits (31 - Z.log2 upper_bound) = Z.succ (Z.log2 upper_bound))
    by (unfold window_bits; lia).
  split; [apply clz_nonzero; lia |].
  rewrite window_mask_ones by lia. rewrite Hbits.
  replace (Z.succ (Z.log2 upper_bound) - 1) with (Z.log2 upper_bound) by lia.
  repeat split; try lia.
  - intros b Hb Hfit.
    destruct (Z.le_gt_cases (Z.succ (Z.log2 upper_bound)) b) as [Hle | Hgt]; [exact Hle |].
    assert (2 ^ b <= 2 ^ Z.log2 upper_bound) by (apply Z.pow_le_mono_r; lia).
    lia.
  - rewrite Z.pow_succ_r by lia. lia.
Qed.

Lemma C4_witness :
  2 <= 10 < 2 ^ 32
  /\ exists zeros,
       clz 10 = Some zeros
       /\ 10 <= 2 ^ window_bits zeros - 1
       /\ (forall b, 0 <= b -> 10 <= 2 ^ b - 1 -> window_bits zeros <= b)
       /\ window_mask zeros = 2 ^ window_bits zeros - 1
       /\ 2 ^ (window_bits zeros - 1) <= 10
       /\ 2 ^ window_bits zeros <= 2 * 10.
Proof.
  assert (H : 2 <= 10 < 2 ^ 32) by (split; [lia | reflexivity]).
  split; [exact H |].
  exact (C4_window_bits_minimal 10 H).
Defined.

(** C8: with a bound below 2 the sampler returns 0, whatever the buffer
    and the seed, before its loop (no fuel is needed). *)
Theorem C8_degenerate_bound_returns_zero
    (fuel : nat) (index_buffer : list Z) (seed upper_bound : Z) :
  upper_bound < 2 ->
  mchr_get_hash_uint_under_limit fuel index_buffer seed upper_bound = Returns 0.
Proof.
  intros H. unfold mchr_get_hash_uint_under_limit.
  destruct (Z.ltb_spec upper_bound 2); [reflexivity | lia].
Qed.

Lemma C8_witness :
  1 < 2 /\ mchr_get_hash_uint_under_limit 0 [130; 23] 7 1 = Returns 0.
Proof.
  assert (H : 1 < 2) by lia.
  split; [exact H |].
  exact (C8_degenerate_bound_returns_zero 0 [130; 23] 7 1 H).
Defined.

(** C9: with [min = 0] and [max = 2^32 - 1] (so [min < max]), the size
    [max - min + 1] of the range wraps to 0 and
    [mchr_get_hash_uint_in_range] returns 0 on every buffer and seed. *)
Theorem C9_full_uint_range_returns_zero
    (fuel : nat) (index_buffer : list Z) (seed : Z) :
  0 < 2 ^ 32 - 1
  /\ add32 (sub32 (2 ^ 32 - 1) 0) 1 = 0
  /\ mchr_get_hash_uint_in_range fuel index_buffer seed 0 (2 ^ 32 - 1) = Returns 0.
Proof.
  split; [reflexivity |]. split; [reflexivity |].
  unfold mchr_get_hash_uint_in_range.
  change (add32 (sub32 (2 ^ 32 - 1) 0) 1) with 0.
  rewrite under_limit_degenerate by lia.
  reflexivity.
Qed.

(** ** Closed integer ranges *)

Ltac unfold32 :=
  unfold is_uint, is_int, add32, sub32, mul32, to_uint, to_int, wrap32 in *;
  change (2 ^ 32) with 4294967296 in *;
  change (2 ^ 31) with 2147483648 in *.

Ltac solve32 := unfold32; Z.div_mod_to_equations; lia.

(** The size of the range as the unsigned variant computes it. *)
Lemma uint_range_size (min max : Z) :
  is_uint min -> is_uint max -> min < max ->
  add32 (sub32 max min) 1 = wrap32 (max - min + 1)
  /\ (wrap32 (max - min + 1) = max - min + 1
      \/ wrap32 (max - min + 1) = 0 /\ min = 0 /\ max = 2 ^ 32 - 1).
Proof. intros Hmin Hmax Hlt. solve32. Qed.

(** The size of the range as the signed variant computes it. *)
Lemma int_range_size (min max : Z) :
  is_int min -> is_int max -> min < max ->
  to_uint (to_int (to_int (max - min) + 1)) = wrap32 (max - min + 1)
  /\ (wrap32 (max - min + 1) = max - min + 1
      \/ wrap32 (max - min + 1) = 0 /\ min = - 2 ^ 31 /\ max = 2 ^ 31 - 1).
Proof. intros Hmin Hmax Hlt. solve32. Qed.

(** When [max - min + 1] fits in [int], the signed computation of the size
    does not overflow. *)
Lemma int_range_size_exact (min max : Z) :
  is_int min -> is_int max -> min < max -> is_int (max - min + 1) ->
  to_int (max - min) = max - min
  /\ to_int (to_int (max - min) + 1) = max - min + 1.
Proof. intros Hmin Hmax Hlt Hfit. solve32. Qed.

Lemma under_limit_inside (fuel : nat) (index_buffer : list Z) (seed size r : Z) :
  0 <= size ->
  mchr_get_hash_uint_under_limit fuel index_buffer seed size = Returns r ->
  r = 0 /\ size < 2 \/ 0 <= r < size.
Proof.
  intros Hsize H.
  destruct (Z.lt_ge_cases size 2) as [Hlt | Hge].
  - rewrite under_limit_degenerate in H by exact Hlt.
    injection H as <-. now left.
  - right. eapply under_limit_range; eauto.
Qed.

Lemma uint_in_range_closed (fuel : nat) (index_buffer : list Z) (seed min max v : Z) :
  is_uint min -> is_uint max -> min < max ->
  mchr_get_hash_uint_in_range fuel index_buffer seed min max = Returns v ->
  (exists r,
      mchr_get_hash_uint_under_limit fuel index_buffer seed (wrap32 (max - min + 1))
      = Returns r
      /\ v = r + min)
  /\ min <= v <= max.
Proof.
  intros Hmin Hmax Hlt. unfold mchr_get_hash_uint_in_range.
  destruct (uint_range_size min max Hmin Hmax Hlt) as [-> Hsize].
  destruct (mchr_get_hash_uint_under_limit _ _ _ _) as [r | |] eqn:Hr;
    cbn [bind]; try discriminate.
  intros [= <-].
  apply under_limit_inside in Hr; [| apply wrap32_range].
  assert (add32 r min = r + min /\ min <= r + min <= max) as [-> Hin].
  { clear - Hmin Hmax Hlt Hsize Hr. solve32. }
  split; [| exact Hin]. now exists r.
Qed.

Lemma int_in_range_closed (fuel : nat) (index_buffer : list Z) (seed min max v : Z) :
  is_int min -> is_int max -> min < max ->
  mchr_get_hash_int_in_range fuel index_buffer seed min max = Returns v ->
  (exists r,
      mchr_get_hash_uint_under_limit fuel index_buffer seed (wrap32 (max - min + 1))
      = Returns r
      /\ v = r + min)
  /\ min <= v <= max.
Proof.
  intros Hmin Hmax Hlt. unfold mchr_get_hash_int_in_range.
  destruct (int_range_size min max Hmin Hmax Hlt) as [-> Hsize].
  destruct (mchr_get_hash_uint_under_limit _ _ _ _) as [r | |] eqn:Hr;
    cbn [bind]; try discriminate.
  intros [= <-].
  apply under_limit_inside in Hr; [| apply wrap32_range].
  assert (to_int (add32 r (to_uint min)) = r + min /\ min <= r + min <= max)
    as [-> Hin].
  { clear - Hmin Hmax Hlt Hsize Hr. solve32. }
  split; [| exact Hin]. now exists r.
Qed.

Lemma uint_in_range_total (index_buffer : list Z) (seed min max : Z) :
  exists fuel v, mchr_get_hash_uint_in_range fuel index_buffer seed min max = Returns v.
Proof.
  destruct (under_limit_total index_buffer seed (add32 (sub32 max min) 1))
    as (fuel & r & Hr).
  exists fuel, (add32 r min). unfold mchr_get_hash_uint_in_range. now rewrite Hr.
Qed.

Lemma int_in_range_total (index_buffer : list Z) (seed min max : Z) :
  exists fuel v, mchr_get_hash_int_in_range fuel index_buffer seed min max = Returns v.
Proof.
  destruct (under_limit_total index_buffer seed
              (to_uint (to_int (to_int (max - min) + 1)))) as (fuel & r & Hr).
  exists fuel, (to_int (add32 r (to_uint min))).
  unfold mchr_get_hash_int_in_range. now rewrite Hr.
Qed.

(** C5: for [min < max], [mchr_get_hash_uint_in_range] and
    [mchr_get_hash_int_in_range] return, and what they return is the
    draw of the bounded sampler for [max - min + 1] (reduced modulo 2^32)
    plus [min], a value between [min] and [max], both included. In the
    signed variant the arithmetic is the same on two's complement
    patterns. *)
Theorem C5_in_range_closed
    (index_buffer : list Z) (seed umin umax imin imax : Z) :
  is_uint umin -> is_uint umax -> umin < umax ->
  is_int imin -> is_int imax -> imin < imax ->
  ((exists fuel v,
       mchr_get_hash_uint_in_range fuel index_buffer seed umin umax = Returns v)
   /\ (forall fuel v,
         mchr_get_hash_uint_in_range fuel index_buffer seed umin umax = Returns v ->
         (exists r,
             mchr_get_hash_uint_under_limit fuel index_buffer seed
               (wrap32 (umax - umin + 1)) = Returns r
             /\ v = r + umin)
         /\ umin <= v <= umax))
  /\ ((exists fuel v,
          mchr_get_hash_int_in_range fuel index_buffer seed imin imax = Returns v)
      /\ (forall fuel v,
            mchr_get_hash_int_in_range fuel index_buffer seed imin imax = Returns v ->
            (exists r,
                mchr_get_hash_uint_under_limit fuel index_buffer seed
                  (wrap32 (imax - imin + 1)) = Returns r
                /\ v = r + imin)
            /\ imin <= v <= imax)).
Proof.
  intros Humin Humax Hult Himin Himax Hilt. repeat split.
  - apply uint_in_range_total.
  - now apply (uint_in_range_closed fuel index_buffer seed umin umax v).
  - now apply (uint_in_range_closed fuel index_buffer seed umin umax v).
  - now apply (uint_in_range_closed fuel index_buffer seed umin umax v).
  - apply int_in_range_total.
  - now apply (int_in_range_closed fuel index_buffer seed imin imax v).
  - now apply (int_in_range_closed fuel index_buffer seed imin imax v).
  - now apply (int_in_range_closed fuel index_buffer seed imin imax v).
Qed.

Lemma C5_witness :
  (is_uint 0 /\ is_uint 9 /\ 0 < 9)
  /\ (is_int (-5) /\ is_int 4 /\ -5 < 4)
  /\ (mchr_get_hash_uint_in_range 1 [130; 23] 0 0 9 = Returns 6 /\ 0 <= 6 <= 9)
  /\ (mchr_get_hash_int_in_range 1 [130; 23] 0 (-5) 4 = Returns 1 /\ -5 <= 1 <= 4).
Proof.
  assert (Hu0 : is_uint 0) by (split; [lia | reflexivity]).
  assert (Hu9 : is_uint 9) by (split; [lia | reflexivity]).
  assert (Hult : 0 < 9) by lia.
  assert (Hi5 : is_int (-5)) by (split; [discriminate | reflexivity]).
  assert (Hi4 : is_int 4) by (split; [discriminate | reflexivity]).
  assert (Hilt : -5 < 4) by lia.
  pose proof (C5_in_range_closed [130; 23] 0 0 9 (-5) 4 Hu0 Hu9 Hult Hi5 Hi4 Hilt)
    as [[_ Hu] [_ Hi]].
  split; [exact (conj Hu0 (conj Hu9 Hult)) |].
  split; [exact (conj Hi5 (conj Hi4 Hilt)) |].
  split; (split; [reflexivity |]).
  - exact (proj2 (Hu 1%nat 6 eq_refl)).
  - exact (proj2 (Hi 1%nat 1 eq_refl)).
Defined.

(** ** Binary32 arithmetic on the draws

    A draw below 2^24 converts to [float] without rounding, the product
    with [1.0f] and the quotient by 2^24 are exact: the mantissa is kept
    and the exponent lowered by 24. *)

Lemma digits2_pos_bounds (p : positive) :
  2 ^ (Zpos (digits2_pos p) - 1) <= Zpos p < 2 ^ Zpos (digits2_pos p).
Proof.
  induction p as [p IH | p IH |]; cbn [digits2_pos].
  - rewrite Pos2Z.inj_succ. replace (Z.succ (Z.pos (digits2_pos p)) - 1) with (Z.succ (Z.pos (digits2_pos p) - 1)) by lia.
    rewrite !Z.pow_succ_r by lia. lia.
  - rewrite Pos2Z.inj_succ. replace (Z.succ (Z.pos (digits2_pos p)) - 1) with (Z.succ (Z.pos (digits2_pos p) - 1)) by lia.
    rewrite !Z.pow_succ_r by lia. lia.
  - cbn. lia.
Qed.

Lemma iter_xO_value (p n : positive) :
  Zpos (Pos.iter xO p n) = Zpos p * 2 ^ Zpos n.
Proof.
  induction n as [| n IH] using Pos.peano_ind.
  - cbn. lia.
  - rewrite Pos.iter_succ, Pos2Z.inj_xO, IH, Pos2Z.inj_succ, Z.pow_succ_r by lia. ring.
Qed.

Lemma iter_xO_digits (p n : positive) :
  digits2_pos (Pos.iter xO p n) = (digits2_pos p + n)%positive.
Proof.
  induction n as [| n IH] using Pos.peano_ind.
  - cbn. lia.
  - rewrite Pos.iter_succ. cbn [digits2_pos]. rewrite IH. lia.
Qed.

Lemma binary_round_aux_normal (s : bool) (m : positive) (e : Z) :
  digits2_pos m = 24%positive -> -149 <= e <= 104 ->
  binary_round_aux 24 128 s (Zpos m) e loc_Exact = S754_finite s m e.
Proof.
  intros Hd He.
  unfold binary_round_aux, shr_fexp. cbn [Zdigits2]. rewrite Hd.
  assert (Hf : fexp 24 128 (24 + e) - e = 0) by (unfold fexp, emin; lia).
  rewrite Hf. cbn [shr shr_record_of_loc shr_m loc_of_shr_record round_nearest_even].
  cbn [Zdigits2]. rewrite Hd, Hf. cbn [shr shr_record_of_loc shr_m].
  destruct (Z.leb_spec e (128 - 24)); [reflexivity | lia].
Qed.

(** Conversion of a positive integer below 2^24. *)
Lemma f32_of_uint_pos (p : positive) :
  Zpos p < 2 ^ 24 ->
  exists m e,
    f32_of_uint (Zpos p) = S754_finite false m e
    /\ digits2_pos m = 24%positive
    /\ -23 <= e <= 0
    /\ Zpos m = Zpos p * 2 ^ (- e).
Proof.
  intros Hp.
  pose proof (digits2_pos_bounds p) as [Hlo Hhi].
  assert (Hd : Zpos (digits2_pos p) <= 24).
  { destruct (Z.le_gt_cases (Zpos (digits2_pos p)) 24) as [H | H]; [exact H |].
    assert (2 ^ 24 <= 2 ^ (Zpos (digits2_pos p) - 1)) by (apply Z.pow_le_mono_r; lia).
    lia. }
  unfold f32_of_uint, binary_normalize, binary_round, shl_align.
  assert (Hf : fexp 24 128 (Zpos (digits2_pos p) + 0) - 0 = Zpos (digits2_pos p) - 24)
    by (unfold fexp, emin; lia).
  rewrite Hf.
  destruct (Zpos (digits2_pos p) - 24) as [| q | q] eqn:Hq; try lia.
  - exists p, 0. rewrite binary_round_aux_normal; try lia.
    repeat split; try lia.
  - exists (Pos.iter xO p q), (fexp 24 128 (Zpos (digits2_pos p) + 0)).
    assert (Hfe : fexp 24 128 (Zpos (digits2_pos p) + 0) = Zneg q)
      by (unfold fexp, emin; lia).
    rewrite Hfe.
    assert (Hdq : digits2_pos (Pos.iter xO p q) = 24%positive)
      by (rewrite iter_xO_digits; lia).
    rewrite binary_round_aux_normal; try lia.
    repeat split; try lia.
    rewrite iter_xO_value. reflexivity.
Qed.

Lemma f32_mul_one (m : positive) (e : Z) :
  digits2_pos m = 24%positive -> -23 <= e <= 0 ->
  f32_mul (S754_finite false m e) f32_one = S754_finite false m e.
Proof.
  intros Hd He.
  change f32_one with (S754_finite false 8388608 (-23)).
  unfold f32_mul, SFmul. cbn [xorb].
  rewrite Pos.mul_comm. cbn [Pos.mul].
  unfold binary_round_aux, shr_fexp. cbn [Zdigits2 digits2_pos]. rewrite Hd.
  cbn [Pos.succ].
  assert (Hf : fexp 24 128 (47 + (e + -23)) - (e + -23) = 23) by (unfold fexp, emin; lia).
  rewrite Hf.
  cbn [shr shr_record_of_loc iter_pos shr_1 orb shr_m loc_of_shr_record round_nearest_even].
  cbn [Zdigits2]. rewrite Hd.
  assert (Hf2 : fexp 24 128 (24 + (e + -23 + 23)) - (e + -23 + 23) = 0) by (unfold fexp, emin; lia).
  rewrite Hf2. cbn [shr shr_record_of_loc shr_m].
  destruct (Z.leb_spec (e + -23 + 23) (128 - 24)); [| lia].
  f_equal. lia.
Qed.

Lemma div_eucl_exact (a b q : Z) :
  0 < b -> a = q * b -> Z.div_eucl a b = (q, 0).
Proof.
  intros Hb Ha.
  pose proof (Z.div_eucl_eq a b ltac:(lia)) as Heq.
  pose proof (Z.mod_pos_bound a b Hb) as Hr.
  unfold Z.modulo in Hr.
  destruct (Z.div_eucl a b) as [q' r'].
  assert (q' = q) by nia. subst q'.
  f_equal. nia.
Qed.

Lemma f32_div_pow24 (m : positive) (e : Z) :
  digits2_pos m = 24%positive -> -23 <= e <= 0 ->
  f32_div (S754_finite false m e) (f32_of_uint (Z.shiftl 1 24))
  = S754_finite false m (e - 24).
Proof.
  intros Hd He.
  change (f32_of_uint (Z.shiftl 1 24)) with (S754_finite false 8388608 1).
  unfold f32_div, SFdiv, SFdiv_core_binary. cbn [xorb Zdigits2].
  rewrite Hd. change (Z.pos (digits2_pos 8388608)) with 24.
  assert (He' : Z.min (fexp 24 128 (24 + e - (24 + 1))) (e - 1) = e - 25)
    by (unfold fexp, emin; lia).
  rewrite He'.
  replace (e - 1 - (e - 25)) with 24 by lia.
  rewrite (div_eucl_exact _ 8388608 (Zpos m~0)); [| lia |].
  2:{ rewrite Z.shiftl_mul_pow2 by lia. change (2 ^ 24) with 16777216. lia. }
  change (new_location 8388608 0) with loc_Exact.
  unfold binary_round_aux, shr_fexp. cbn [Zdigits2 digits2_pos]. rewrite Hd.
  cbn [Pos.succ].
  assert (Hf : fexp 24 128 (25 + (e - 25)) - (e - 25) = 1) by (unfold fexp, emin; lia).
  rewrite Hf.
  cbn [shr shr_record_of_loc iter_pos shr_1 orb shr_m loc_of_shr_record round_nearest_even].
  cbn [Zdigits2]. rewrite Hd.
  assert (Hf2 : fexp 24 128 (24 + (e - 25 + 1)) - (e - 25 + 1) = 0) by (unfold fexp, emin; lia).
  rewrite Hf2. cbn [shr shr_record_of_loc shr_m].
  destruct (Z.leb_spec (e - 25 + 1) (128 - 24)); [| lia].
  f_equal. lia.
Qed.

Lemma land_low24 (k : Z) : 0 <= k < 2 ^ 24 -> Z.land k (Z.shiftl 1 24 - 1) = k.
Proof.
  intros Hk. change (Z.shiftl 1 24 - 1) with (Z.ones 24).
  rewrite Z.land_ones by lia. now apply Z.mod_small.
Qed.

(** The mapping on draws below 2^24. *)
Lemma uint_to_zero_one_below (k : Z) :
  0 <= k < 2 ^ 24 ->
  f_scaled 24 (mchr_priv_uint_to_zero_one k) = Some k
  /\ f_lt (mchr_priv_uint_to_zero_one k) f32_zero = false
  /\ f_lt (mchr_priv_uint_to_zero_one k) f32_one = true
  /\ f_lt f32_one (mchr_priv_uint_to_zero_one k) = false.
Proof.
  intros Hk. unfold mchr_priv_uint_to_zero_one.
  destruct (Z.geb_spec k (Z.shiftl 1 24)) as [Hge | _].
  { change (Z.shiftl 1 24) with (2 ^ 24) in Hge. lia. }
  rewrite land_low24 by exact Hk.
  destruct k as [| p | p]; [| | lia].
  - repeat split; reflexivity.
  - destruct (f32_of_uint_pos p (proj2 Hk)) as (m & e & -> & Hd & He & Hm).
    rewrite f32_mul_one, f32_div_pow24 by assumption.
    repeat split.
    + unfold f_scaled. replace (e - 24 + 24) with e by lia.
      destruct (Z.leb_spec 0 e) as [H0 | Hneg].
      * assert (e = 0) by lia. subst e. cbn [cond_Zopp]. f_equal.
        rewrite Hm. cbn. lia.
      * rewrite Hm, Z.mod_mul, Z.eqb_refl by lia. cbn [cond_Zopp].
        rewrite Z.div_mul by lia. reflexivity.
    + change f32_one with (S754_finite false 8388608 (-23)).
      unfold f_lt, SFltb, SFcompare.
      destruct (Z.compare_spec (e - 24) (-23)); try lia; reflexivity.
    + change f32_one with (S754_finite false 8388608 (-23)).
      unfold f_lt, SFltb, SFcompare.
      destruct (Z.compare_spec (-23) (e - 24)); try lia; reflexivity.
Qed.

Lemma uint_to_zero_one_edge :
  mchr_priv_uint_to_zero_one (2 ^ 24) = f32_one
  /\ f_scaled 24 f32_one = Some (2 ^ 24)
  /\ f_lt f32_one f32_zero = false
  /\ f_lt f32_one f32_one = false.
Proof. repeat split; reflexivity. Qed.

Lemma zero_to_one_total (index_buffer : list Z) (seed : Z) :
  exists fuel x, mchr_get_hash_zero_to_one fuel index_buffer seed = Returns x.
Proof.
  destruct (under_limit_total index_buffer seed (Z.shiftl 1 24 + 1))
    as (fuel & r & Hr).
  exists fuel, (mchr_priv_uint_to_zero_one r).
  unfold mchr_get_hash_zero_to_one. now rewrite Hr.
Qed.

Lemma zero_to_one_draw (fuel : nat) (index_buffer : list Z) (seed : Z) (x : spec_float) :
  mchr_get_hash_zero_to_one fuel index_buffer seed = Returns x ->
  exists k,
    mchr_get_hash_uint_under_limit fuel index_buffer seed (2 ^ 24 + 1) = Returns k
    /\ 0 <= k <= 2 ^ 24
    /\ x = mchr_priv_uint_to_zero_one k.
Proof.
  unfold mchr_get_hash_zero_to_one.
  change (Z.shiftl 1 24 + 1) with (2 ^ 24 + 1).
  destruct (mchr_get_hash_uint_under_limit _ _ _ _) as [k | |] eqn:Hk;
    cbn [bind]; try discriminate.
  intros [= <-]. exists k. split; [reflexivity |]. split; [| reflexivity].
  apply under_limit_range in Hk; lia.
Qed.

Lemma zero_to_one_value (k : Z) :
  0 <= k <= 2 ^ 24 ->
  f_scaled 24 (mchr_priv_uint_to_zero_one k) = Some k
  /\ f_lt (mchr_priv_uint_to_zero_one k) f32_zero = false
  /\ f_lt f32_one (mchr_priv_uint_to_zero_one k) = false.
Proof.
  intros Hk. destruct (Z.eq_dec k (2 ^ 24)) as [-> | Hne].
  - repeat split; reflexivity.
  - destruct (uint_to_zero_one_below k ltac:(lia)) as (H1 & H2 & _ & H4).
    auto.
Qed.

(** C6: [mchr_get_hash_zero_to_one] returns; what it returns is the image
    of a draw [k] of the bounded sampler for [2^24 + 1], so
    [0 <= k <= 2^24], and it is exactly [k / 2^24]; it is neither below
    [0.0] nor above [1.0]; the draw [2^24] gives exactly [1.0]. *)
Theorem C6_zero_to_one_closed_unit_interval (index_buffer : list Z) (seed : Z) :
  (exists fuel x, mchr_get_hash_zero_to_one fuel index_buffer seed = Returns x)
  /\ (forall fuel x,
        mchr_get_hash_zero_to_one fuel index_buffer seed = Returns x ->
        exists k,
          mchr_get_hash_uint_under_limit fuel index_buffer seed (2 ^ 24 + 1) = Returns k
          /\ 0 <= k <= 2 ^ 24
          /\ x = mchr_priv_uint_to_zero_one k
          /\ f_scaled 24 x = Some k
          /\ f_lt x f32_zero = false
          /\ f_lt f32_one x = false)
  /\ mchr_priv_uint_to_zero_one (2 ^ 24) = f32_one
  /\ f_scaled 24 f32_one = Some (2 ^ 24).
Proof.
  split; [apply zero_to_one_total |]. split; [| split; reflexivity].
  intros fuel x Hx.
  destruct (zero_to_one_draw fuel index_buffer seed x Hx) as (k & Hk & Hrange & ->).
  exists k. destruct (zero_to_one_value k Hrange) as (H1 & H2 & H3).
  auto 8.
Qed.

(** ** Chance *)

Lemma chance_is_comparison
    (fuel : nat) (index_buffer : list Z) (seed : Z) (probability_of_true : spec_float) :
  mchr_get_chance fuel index_buffer seed probability_of_true
  = (x <- mchr_get_hash_zero_to_one fuel index_buffer seed ;;
     Returns (f_lt x probability_of_true)).
Proof. reflexivity. Qed.

Lemma chance_total (index_buffer : list Z) (seed : Z) (probability_of_true : spec_float) :
  exists fuel b,
    mchr_get_chance fuel index_buffer seed probability_of_true = Returns b.
Proof.
  destruct (zero_to_one_total index_buffer seed) as (fuel & x & Hx).
  exists fuel, (f_lt x probability_of_true).
  unfold mchr_get_chance. now rewrite Hx.
Qed.

Lemma chance_zero_false (fuel : nat) (index_buffer : list Z) (seed : Z) (b : bool) :
  mchr_get_chance fuel index_buffer seed f32_zero = Returns b -> b = false.
Proof.
  unfold mchr_get_chance.
  destruct (mchr_get_hash_zero_to_one fuel index_buffer seed) as [x | |] eqn:Hx;
    cbn [bind]; try discriminate.
  intros [= <-].
  destruct (zero_to_one_draw _ _ _ _ Hx) as (k & _ & Hrange & ->).
  apply (zero_to_one_value k Hrange).
Qed.

(** With probability [1.0] the answer is [true] exactly when the draw is
    not the last one, [2^24]. *)
Lemma chance_one_true_iff (fuel : nat) (index_buffer : list Z) (seed k : Z) (b : bool) :
  mchr_get_hash_uint_under_limit fuel index_buffer seed (2 ^ 24 + 1) = Returns k ->
  mchr_get_chance fuel index_buffer seed f32_one = Returns b ->
  (b = true <-> k <> 2 ^ 24).
Proof.
  intros Hk. unfold mchr_get_chance, mchr_get_hash_zero_to_one.
  change (Z.shiftl 1 24 + 1) with (2 ^ 24 + 1). rewrite Hk. cbn [bind].
  intros [= <-].
  apply under_limit_range in Hk; [| lia].
  destruct (Z.eq_dec k (2 ^ 24)) as [-> | Hne].
  - split; [discriminate | congruence].
  - destruct (uint_to_zero_one_below k ltac:(lia)) as (_ & _ & H3 & _).
    now rewrite H3.
Qed.

(** C2: [mchr_get_chance] returns the comparison of
    [mchr_get_hash_zero_to_one] with the probability, and it is [false]
    for the probability [0.0] on every buffer and seed. For the
    probability [1.0] it is not always [true]: on the buffer of the one
    word 0 with seed 2094098940 the draw is [2^24],
    [mchr_get_hash_zero_to_one] is [1.0] and the answer is [false]. The
    compared value ranges over the closed interval, not over [0, 1). *)
Theorem C2_chance_one_is_false_on_last_draw :
  (forall fuel index_buffer seed b,
      mchr_get_chance fuel index_buffer seed f32_zero = Returns b -> b = false)
  /\ mchr_get_hash_uint_under_limit 1 [0] 2094098940 (2 ^ 24 + 1) = Returns (2 ^ 24)
  /\ mchr_get_hash_zero_to_one 1 [0] 2094098940 = Returns f32_one
  /\ mchr_get_chance 1 [0] 2094098940 f32_one = Returns false.
Proof.
  split; [exact chance_zero_false |].
  repeat split; vm_compute; reflexivity.
Qed.

(** ** Coordinate-based operations *)

Lemma pack_coordinates (posX posY posZ posT : Z) :
  pack [posX] = [to_uint posX]
  /\ pack [posX; posY] = [to_uint posX; to_uint posY]
  /\ pack [posX; posY; posZ] = [to_uint posX; to_uint posY; to_uint posZ]
  /\ pack [posX; posY; posZ; posT]
     = [to_uint posX; to_uint posY; to_uint posZ; to_uint posT].
Proof. repeat split. Qed.

Lemma pack_byte_len (coords : list Z) :
  byte_len (pack coords) = 4 * Z.of_nat (length coords).
Proof. unfold byte_len, pack. now rewrite length_map. Qed.

(** C7: each overload on 1 to 4 coordinates is the buffer-based operation
    on the buffer of these coordinates, packed as 32-bit words in the
    order of the arguments (4 bytes each), with the same seed and the same
    other arguments. *)
Theorem C7_coordinate_overloads_delegate
    (fuel : nat) (posX posY posZ posT seed umin umax imin imax : Z)
    (probability_of_true : spec_float) :
  let b1 := pack [posX] in
  let b2 := pack [posX; posY] in
  let b3 := pack [posX; posY; posZ] in
  let b4 := pack [posX; posY; posZ; posT] in
  (b1 = [to_uint posX]
   /\ b2 = [to_uint posX; to_uint posY]
   /\ b3 = [to_uint posX; to_uint posY; to_uint posZ]
   /\ b4 = [to_uint posX; to_uint posY; to_uint posZ; to_uint posT])
  /\ (byte_len b1 = 4 /\ byte_len b2 = 8 /\ byte_len b3 = 12 /\ byte_len b4 = 16)
  /\ (mchr_get_1d_hash_uint posX seed = mchr_get_hash_uint b1 seed
      /\ mchr_get_2d_hash_uint posX posY seed = mchr_get_hash_uint b2 seed
      /\ mchr_get_3d_hash_uint posX posY posZ seed = mchr_get_hash_uint b3 seed
      /\ mchr_get_4d_hash_uint posX posY posZ posT seed = mchr_get_hash_uint b4 seed)
  /\ (mchr_get_1d_hash_uint_in_range fuel posX seed umin umax
      = mchr_get_hash_uint_in_range fuel b1 seed umin umax
      /\ mchr_get_2d_hash_uint_in_range fuel posX posY seed umin umax
         = mchr_get_hash_uint_in_range fuel b2 seed umin umax
      /\ mchr_get_3d_hash_uint_in_range fuel posX posY posZ seed umin umax
         = mchr_get_hash_uint_in_range fuel b3 seed umin umax
      /\ mchr_get_4d_hash_uint_in_range fuel posX posY posZ posT seed umin umax
         = mchr_get_hash_uint_in_range fuel b4 seed umin umax)
  /\ (mchr_get_1d_hash_int_in_range fuel posX seed imin imax
      = mchr_get_hash_int_in_range fuel b1 seed imin imax
      /\ mchr_get_2d_hash_int_in_range fuel posX posY seed imin imax
         = mchr_get_hash_int_in_range fuel b2 seed imin imax
      /\ mchr_get_3d_hash_int_in_range fuel posX posY posZ seed imin imax
         = mchr_get_hash_int_in_range fuel b3 seed imin imax
      /\ mchr_get_4d_hash_int_in_range fuel posX posY posZ posT seed imin imax
         = mchr_get_hash_int_in_range fuel b4 seed imin imax)
  /\ (mchr_get_1d_hash_zero_to_one fuel posX seed
      = mchr_get_hash_zero_to_one fuel b1 seed
      /\ mchr_get_2d_hash_zero_to_one fuel posX posY seed
         = mchr_get_hash_zero_to_one fuel b2 seed
      /\ mchr_get_3d_hash_zero_to_one fuel posX posY posZ seed
         = mchr_get_hash_zero_to_one fuel b3 seed
      /\ mchr_get_4d_hash_zero_to_one fuel posX posY posZ posT seed
         = mchr_get_hash_zero_to_one fuel b4 seed)
  /\ (mchr_get_1d_hash_neg_one_to_one fuel posX seed
      = mchr_get_hash_neg_one_to_one fuel b1 seed
      /\ mchr_get_2d_hash_neg_one_to_one fuel posX posY seed
         = mchr_get_hash_neg_one_to_one fuel b2 seed
      /\ mchr_get_3d_hash_neg_one_to_one fuel posX posY posZ seed
         = mchr_get_hash_neg_one_to_one fuel b3 seed
      /\ mchr_get_4d_hash_neg_one_to_one fuel posX posY posZ posT seed
         = mchr_get_hash_neg_one_to_one fuel b4 seed)
  /\ (mchr_get_1d_chance fuel posX seed probability_of_true
      = mchr_get_chance fuel b1 seed probability_of_true
      /\ mchr_get_2d_chance fuel posX posY seed probability_of_true
         = mchr_get_chance fuel b2 seed probability_of_true
      /\ mchr_get_3d_chance fuel posX posY posZ seed probability_of_true
         = mchr_get_chance fuel b3 seed probability_of_true
      /\ mchr_get_4d_chance fuel posX posY posZ posT seed probability_of_true
         = mchr_get_chance fuel b4 seed probability_of_true).
Proof.
  intros b1 b2 b3 b4.
  split; [apply pack_coordinates |].
  split; [subst b1 b2 b3 b4; rewrite !pack_byte_len; repeat split |].
  repeat split.
Qed.

(** ** No call of [clz] on 0 *)

Lemma bind_not_undefined {A B : Type} (m : outcome A) (k : A -> outcome B) :
  m <> Undefined -> (forall a, k a <> Undefined) -> bind m k <> Undefined.
Proof.
  intros Hm Hk. destruct m; cbn [bind]; [apply Hk | contradiction | discriminate].
Qed.

Create HintDb mchr_ops.

#[local] Hint Unfold never_undefined
  mchr_get_hash_uint_in_range mchr_get_hash_int_in_range
  mchr_get_hash_zero_to_one mchr_get_hash_neg_one_to_one mchr_get_chance
  mchr_get_1d_hash_uint_in_range mchr_get_2d_hash_uint_in_range
  mchr_get_3d_hash_uint_in_range mchr_get_4d_hash_uint_in_range
  mchr_get_1d_hash_int_in_range mchr_get_2d_hash_int_in_range
  mchr_get_3d_hash_int_in_range mchr_get_4d_hash_int_in_range
  mchr_get_1d_hash_zero_to_one mchr_get_2d_hash_zero_to_one
  mchr_get_3d_hash_zero_to_one mchr_get_4d_hash_zero_to_one
  mchr_get_1d_hash_neg_one_to_one mchr_get_2d_hash_neg_one_to_one
  mchr_get_3d_hash_neg_one_to_one mchr_get_4d_hash_neg_one_to_one
  mchr_get_1d_chance mchr_get_2d_chance mchr_get_3d_chance mchr_get_4d_chance
  : mchr_ops.

Ltac no_undefined :=
  autounfold with mchr_ops; intros;
  repeat (apply bind_not_undefined; [| intros; try discriminate]);
  apply under_limit_not_undefined.

(** The facts at the call [clz(upper_bound)], which is reached exactly
    when [upper_bound < 2] fails. *)
Lemma clz_call_site (upper_bound : Z) :
  ~ upper_bound < 2 -> upper_bound < 2 ^ 32 ->
  upper_bound <> 0
  /\ exists zeros,
       clz upper_bound = Some zeros
       /\ clz_msvc upper_bound = zeros
       /\ 0 <= zeros <= 30
       /\ 2 <= window_bits zeros.
Proof.
  intros Hguard Hhi.
  pose proof (log2_uint_range upper_bound ltac:(lia)) as Hlog.
  split; [lia |].
  exists (31 - Z.log2 upper_bound).
  assert (Hclz : clz upper_bound = Some (31 - Z.log2 upper_bound))
    by (apply clz_nonzero; lia).
  split; [exact Hclz |]. split; [now apply clz_agrees_msvc |].
  unfold window_bits. lia.
Qed.

(** C10: [mchr_get_hash_uint_under_limit], the one caller of [clz], calls
    it only after the test [upper_bound < 2] has failed, so with a nonzero
    argument, and there [zeros <= 30] and [bits >= 2]; no public operation
    reaches [clz(0)]. *)
Theorem C10_clz_argument_nonzero
    (upper_bound : Z) (index_buffer : list Z)
    (any_bound seed posX posY posZ posT umin umax imin imax : Z)
    (probability_of_true : spec_float) :
  ~ upper_bound < 2 -> upper_bound < 2 ^ 32 ->
  (upper_bound <> 0
   /\ exists zeros,
        clz upper_bound = Some zeros
        /\ clz_msvc upper_bound = zeros
        /\ 0 <= zeros <= 30
        /\ 2 <= window_bits zeros)
  /\ never_undefined
       (fun fuel => mchr_get_hash_uint_under_limit fuel index_buffer seed any_bound)
  /\ (never_undefined
        (fun fuel => mchr_get_hash_uint_in_range fuel index_buffer seed umin umax)
      /\ never_undefined
           (fun fuel => mchr_get_hash_int_in_range fuel index_buffer seed imin imax)
      /\ never_undefined
           (fun fuel => mchr_get_hash_zero_to_one fuel index_buffer seed)
      /\ never_undefined
           (fun fuel => mchr_get_hash_neg_one_to_one fuel index_buffer seed)
      /\ never_undefined
           (fun fuel => mchr_get_chance fuel index_buffer seed probability_of_true))
  /\ (never_undefined
        (fun fuel => mchr_get_1d_hash_uint_in_range fuel posX seed umin umax)
      /\ never_undefined
           (fun fuel => mchr_get_2d_hash_uint_in_range fuel posX posY seed umin umax)
      /\ never_undefined
           (fun fuel => mchr_get_3d_hash_uint_in_range fuel posX posY posZ seed umin umax)
      /\ never_undefined
           (fun fuel =>
              mchr_get_4d_hash_uint_in_range fuel posX posY posZ posT seed umin umax))
  /\ (never_undefined
        (fun fuel => mchr_get_1d_hash_int_in_range fuel posX seed imin imax)
      /\ never_undefined
           (fun fuel => mchr_get_2d_hash_int_in_range fuel posX posY seed imin imax)
      /\ never_undefined
           (fun fuel => mchr_get_3d_hash_int_in_range fuel posX posY posZ seed imin imax)
      /\ never_undefined
           (fun fuel =>
              mchr_get_4d_hash_int_in_range fuel posX posY posZ posT seed imin imax))
  /\ (never_undefined (fun fuel => mchr_get_1d_hash_zero_to_one fuel posX seed)
      /\ never_undefined (fun fuel => mchr_get_2d_hash_zero_to_one fuel posX posY seed)
      /\ never_undefined
           (fun fuel => mchr_get_3d_hash_zero_to_one fuel posX posY posZ seed)
      /\ never_undefined
           (fun fuel => mchr_get_4d_hash_zero_to_one fuel posX posY posZ posT seed))
  /\ (never_undefined (fun fuel => mchr_get_1d_hash_neg_one_to_one fuel posX seed)
      /\ never_undefined
           (fun fuel => mchr_get_2d_hash_neg_one_to_one fuel posX posY seed)
      /\ never_undefined
           (fun fuel => mchr_get_3d_hash_neg_one_to_one fuel posX posY posZ seed)
      /\ never_undefined
           (fun fuel => mchr_get_4d_hash_neg_one_to_one fuel posX posY posZ posT seed))
  /\ (never_undefined
        (fun fuel => mchr_get_1d_chance fuel posX seed probability_of_true)
      /\ never_undefined
           (fun fuel => mchr_get_2d_chance fuel posX posY seed probability_of_true)
      /\ never_undefined
           (fun fuel => mchr_get_3d_chance fuel posX posY posZ seed probability_of_true)
      /\ never_undefined
           (fun fuel =>
              mchr_get_4d_chance fuel posX posY posZ posT seed probability_of_true)).
Proof.
  intros Hguard Hhi.
  split; [now apply clz_call_site |].
  repeat match goal with |- _ /\ _ => split end; no_undefined.
Qed.

Lemma C10_witness :
  (~ 2 < 2) /\ 2 < 2 ^ 32
  /\ 2 <> 0
  /\ exists zeros,
       clz 2 = Some zeros
       /\ clz_msvc 2 = zeros
       /\ 0 <= zeros <= 30
       /\ 2 <= window_bits zeros.
Proof.
  assert (Hguard : ~ 2 < 2) by lia.
  assert (Hhi : 2 < 2 ^ 32) by reflexivity.
  split; [exact Hguard |]. split; [exact Hhi |].
  exact (proj1 (C10_clz_argument_nonzero 2 [130; 23] 10 0 1 2 3 4 0 9 (-5) 4
                  f32_one Hguard Hhi)).
Defined.

(** * Further properties of the hash, the sampler and the mappers *)

Lemma hash_finish_split (num seed : Z) :
  hash_finish num seed = hash_avalanche (add32 (mul32 num MCHR_BIT_NOISE1) seed).
Proof. reflexivity. Qed.

Lemma land_lxor_distr (a b c : Z) :
  Z.land (Z.lxor a b) c = Z.lxor (Z.land a c) (Z.land b c).
Proof.
  apply Z.bits_inj'. intros n Hn.
  rewrite Z.land_spec, !Z.lxor_spec, !Z.land_spec.
  destruct (Z.testbit a n), (Z.testbit b n), (Z.testbit c n); reflexivity.
Qed.

Lemma is_uint_land (x : Z) : is_uint x <-> Z.land x (Z.ones 32) = x.
Proof.
  unfold is_uint. rewrite Z.land_ones by lia. split.
  - intros H. now apply Z.mod_small.
  - intros <-. apply Z.mod_pos_bound. lia.
Qed.

Lemma is_uint_wrap32 (x : Z) : is_uint (wrap32 x).
Proof. apply wrap32_range. Qed.

Lemma is_uint_lxor (a b : Z) : is_uint a -> is_uint b -> is_uint (Z.lxor a b).
Proof.
  rewrite !is_uint_land. intros Ha Hb.
  now rewrite land_lxor_distr, Ha, Hb.
Qed.

Lemma is_uint_shiftr (a c : Z) : is_uint a -> 0 <= c -> is_uint (Z.shiftr a c).
Proof.
  unfold is_uint. intros Ha Hc. rewrite Z.shiftr_div_pow2 by lia. split.
  - apply Z.div_pos; lia.
  - apply Z.le_lt_trans with a; [| lia].
    apply Z.div_le_upper_bound; [lia |].
    assert (1 <= 2 ^ c) by (apply (Z.pow_le_mono_r 2 0 c); lia). nia.
Qed.

Lemma is_uint_xor_shr (c x : Z) : 0 <= c -> is_uint x -> is_uint (xor_shr c x).
Proof. intros. unfold xor_shr. apply is_uint_lxor; [| apply is_uint_shiftr]; assumption. Qed.

Lemma is_uint_xor_shl (c x : Z) : is_uint x -> is_uint (xor_shl c x).
Proof. intros. apply is_uint_lxor; [assumption | apply is_uint_wrap32]. Qed.

Lemma xor_shr_twice (c x : Z) :
  0 <= c -> xor_shr c (xor_shr c x) = xor_shr (c + c) x.
Proof.
  intros Hc. unfold xor_shr.
  rewrite Z.shiftr_lxor, Z.shiftr_shiftr by lia.
  rewrite Z.lxor_assoc, <- (Z.lxor_assoc (Z.shiftr x c)), Z.lxor_nilpotent, Z.lxor_0_l.
  reflexivity.
Qed.

Lemma xor_shr_32 (x : Z) : is_uint x -> xor_shr 32 x = x.
Proof.
  intros Hx. unfold xor_shr. rewrite Z.shiftr_div_pow2 by lia.
  rewrite Z.div_small by exact Hx. apply Z.lxor_0_r.
Qed.

Lemma xor_shr8_four (x : Z) :
  is_uint x -> xor_shr 8 (xor_shr 8 (xor_shr 8 (xor_shr 8 x))) = x.
Proof.
  intros Hx. rewrite xor_shr_twice by lia.
  rewrite (xor_shr_twice 8 x) by lia. rewrite xor_shr_twice by lia.
  now apply xor_shr_32.
Qed.

Lemma shl32_lxor (a b c : Z) :
  shl32 (Z.lxor a b) c = Z.lxor (shl32 a c) (shl32 b c).
Proof.
  unfold shl32, wrap32. rewrite <- !Z.land_ones by lia.
  now rewrite Z.shiftl_lxor, land_lxor_distr.
Qed.

Lemma shl32_shl32 (a c d : Z) :
  0 <= c -> 0 <= d -> shl32 (shl32 a c) d = shl32 a (c + d).
Proof.
  intros Hc Hd. unfold shl32, wrap32.
  rewrite !Z.shiftl_mul_pow2 by lia.
  rewrite Zmult_mod_idemp_l, Z.pow_add_r by lia. f_equal. ring.
Qed.

Lemma xor_shl_twice (c x : Z) :
  0 <= c -> xor_shl c (xor_shl c x) = xor_shl (c + c) x.
Proof.
  intros Hc. unfold xor_shl.
  rewrite shl32_lxor, shl32_shl32 by lia.
  rewrite Z.lxor_assoc, <- (Z.lxor_assoc (shl32 x c)), Z.lxor_nilpotent, Z.lxor_0_l.
  reflexivity.
Qed.

Lemma xor_shl_32 (x : Z) : xor_shl 32 x = x.
Proof.
  unfold xor_shl, shl32, wrap32. rewrite Z.shiftl_mul_pow2 by lia.
  rewrite Z.mod_mul by lia. apply Z.lxor_0_r.
Qed.

Lemma xor_shl8_four (x : Z) :
  xor_shl 8 (xor_shl 8 (xor_shl 8 (xor_shl 8 x))) = x.
Proof.
  rewrite xor_shl_twice by lia.
  rewrite (xor_shl_twice 8 x) by lia. rewrite xor_shl_twice by lia.
  apply xor_shl_32.
Qed.

Lemma mul32_noise3_inv (x : Z) :
  mul32 (mul32 x MCHR_BIT_NOISE3) MCHR_BIT_NOISE3_INV = wrap32 x.
Proof.
  unfold mul32, wrap32. rewrite Zmult_mod_idemp_l, <- Z.mul_assoc.
  rewrite Zmult_mod. change ((MCHR_BIT_NOISE3 * MCHR_BIT_NOISE3_INV) mod 2 ^ 32) with 1.
  now rewrite Z.mul_1_r, Z.mod_mod by lia.
Qed.

Lemma mul32_inv_noise3 (x : Z) :
  mul32 (mul32 x MCHR_BIT_NOISE3_INV) MCHR_BIT_NOISE3 = wrap32 x.
Proof.
  unfold mul32, wrap32. rewrite Zmult_mod_idemp_l, <- Z.mul_assoc.
  rewrite Zmult_mod. change ((MCHR_BIT_NOISE3_INV * MCHR_BIT_NOISE3) mod 2 ^ 32) with 1.
  now rewrite Z.mul_1_r, Z.mod_mod by lia.
Qed.

Lemma sub32_add32 (x c : Z) : sub32 (add32 x c) c = wrap32 x.
Proof. unfold sub32, add32, wrap32. rewrite Zminus_mod_idemp_l. f_equal. ring. Qed.

Lemma add32_sub32 (x c : Z) : add32 (sub32 x c) c = wrap32 x.
Proof. unfold sub32, add32, wrap32. rewrite Zplus_mod_idemp_l. f_equal. ring. Qed.

Lemma add32_sub32_l (x c : Z) : add32 c (sub32 x c) = wrap32 x.
Proof. unfold sub32, add32, wrap32. rewrite Zplus_mod_idemp_r. f_equal. ring. Qed.

Lemma sub32_add32_l (x c : Z) : sub32 (add32 c x) c = wrap32 x.
Proof. unfold sub32, add32, wrap32. rewrite Zminus_mod_idemp_l. f_equal. ring. Qed.

Lemma is_uint_avalanche (x : Z) : is_uint x -> is_uint (hash_avalanche x).
Proof.
  intros Hx. unfold hash_avalanche. cbv zeta.
  apply (is_uint_xor_shr 8); [lia | apply is_uint_wrap32].
Qed.

Lemma is_uint_unavalanche (v : Z) : is_uint v -> is_uint (hash_unavalanche v).
Proof.
  intros Hv. unfold hash_unavalanche, undo_xor_shr8. cbv zeta.
  repeat (apply is_uint_xor_shr; [lia |]). apply is_uint_wrap32.
Qed.

Lemma xor_shr8_undo (y : Z) : is_uint y -> xor_shr 8 (undo_xor_shr8 y) = y.
Proof. intros Hy. unfold undo_xor_shr8. now apply xor_shr8_four. Qed.

Lemma undo_xor_shr8_xor (x : Z) : is_uint x -> undo_xor_shr8 (xor_shr 8 x) = x.
Proof. intros Hx. unfold undo_xor_shr8. now apply xor_shr8_four. Qed.

Lemma xor_shl8_undo (y : Z) : xor_shl 8 (undo_xor_shl8 y) = y.
Proof. unfold undo_xor_shl8. apply xor_shl8_four. Qed.

Lemma undo_xor_shl8_xor (x : Z) : undo_xor_shl8 (xor_shl 8 x) = x.
Proof. unfold undo_xor_shl8. apply xor_shl8_four. Qed.

Lemma is_uint_undo_xor_shr8 (y : Z) : is_uint y -> is_uint (undo_xor_shr8 y).
Proof.
  intros Hy. unfold undo_xor_shr8. repeat (apply is_uint_xor_shr; [lia |]). exact Hy.
Qed.

Lemma is_uint_undo_xor_shl8 (y : Z) : is_uint y -> is_uint (undo_xor_shl8 y).
Proof. intros Hy. unfold undo_xor_shl8. now repeat apply is_uint_xor_shl. Qed.

Lemma hash_avalanche_steps (x : Z) :
  hash_avalanche x
  = xor_shr 8 (mul32 (xor_shl 8 (add32 (xor_shr 8 x) MCHR_BIT_NOISE2)) MCHR_BIT_NOISE3).
Proof. reflexivity. Qed.

Lemma hash_unavalanche_steps (v : Z) :
  hash_unavalanche v
  = undo_xor_shr8
      (sub32 (undo_xor_shl8 (mul32 (undo_xor_shr8 v) MCHR_BIT_NOISE3_INV))
             MCHR_BIT_NOISE2).
Proof. reflexivity. Qed.

Lemma hash_unavalanche_avalanche (x : Z) :
  is_uint x -> hash_unavalanche (hash_avalanche x) = x.
Proof.
  intros Hx. rewrite hash_avalanche_steps, hash_unavalanche_steps.
  rewrite undo_xor_shr8_xor by apply is_uint_wrap32.
  rewrite mul32_noise3_inv, wrap32_small
    by (apply is_uint_xor_shl, is_uint_wrap32).
  rewrite undo_xor_shl8_xor, sub32_add32, wrap32_small
    by (apply is_uint_xor_shr; [lia | exact Hx]).
  now apply undo_xor_shr8_xor.
Qed.

Lemma hash_avalanche_unavalanche (v : Z) :
  is_uint v -> hash_avalanche (hash_unavalanche v) = v.
Proof.
  intros Hv. rewrite hash_avalanche_steps, hash_unavalanche_steps.
  rewrite xor_shr8_undo by apply is_uint_wrap32.
  rewrite add32_sub32, wrap32_small
    by (apply is_uint_undo_xor_shl8, is_uint_wrap32).
  rewrite xor_shl8_undo, mul32_inv_noise3, wrap32_small
    by (now apply is_uint_undo_xor_shr8).
  now apply xor_shr8_undo.
Qed.

(** Round trips between seeds and hashes of one buffer. *)
Lemma seed_of_hash_hash (index_buffer : list Z) (seed : Z) :
  is_uint seed ->
  seed_of_hash index_buffer (mchr_get_hash_uint index_buffer seed) = seed.
Proof.
  intros Hs. unfold seed_of_hash, mchr_get_hash_uint.
  rewrite hash_finish_split, hash_unavalanche_avalanche by apply is_uint_wrap32.
  rewrite sub32_add32_l. now apply wrap32_small.
Qed.

Lemma hash_seed_of_hash (index_buffer : list Z) (v : Z) :
  is_uint v ->
  mchr_get_hash_uint index_buffer (seed_of_hash index_buffer v) = v.
Proof.
  intros Hv. unfold seed_of_hash, mchr_get_hash_uint.
  rewrite hash_finish_split, add32_sub32_l.
  rewrite wrap32_small by now apply is_uint_unavalanche.
  now apply hash_avalanche_unavalanche.
Qed.

Lemma is_uint_hash (index_buffer : list Z) (seed : Z) :
  is_uint (mchr_get_hash_uint index_buffer seed).
Proof.
  unfold mchr_get_hash_uint. rewrite hash_finish_split.
  apply is_uint_avalanche, is_uint_wrap32.
Qed.

(** X1: for a fixed index buffer the hash is a bijection between 32-bit
    seeds and 32-bit values; [seed_of_hash] is its inverse. *)
Theorem X1_hash_is_bijection_of_seeds (index_buffer : list Z) (seed v : Z) :
  is_uint seed -> is_uint v ->
  is_uint (mchr_get_hash_uint index_buffer seed)
  /\ is_uint (seed_of_hash index_buffer v)
  /\ seed_of_hash index_buffer (mchr_get_hash_uint index_buffer seed) = seed
  /\ mchr_get_hash_uint index_buffer (seed_of_hash index_buffer v) = v
  /\ (mchr_get_hash_uint index_buffer seed = v <-> seed = seed_of_hash index_buffer v).
Proof.
  intros Hs Hv.
  split; [apply is_uint_hash |]. split; [apply is_uint_wrap32 |].
  split; [now apply seed_of_hash_hash |]. split; [now apply hash_seed_of_hash |].
  split.
  - intros <-. symmetry. now apply seed_of_hash_hash.
  - intros ->. now apply hash_seed_of_hash.
Qed.

Ltac solve_mod :=
  unfold add32, sub32, mul32, to_uint, wrap32 in *;
  change (2 ^ 32) with 4294967296 in *;
  change (2 ^ 30) with 1073741824 in *;
  change (2 ^ 26) with 67108864 in *;
  Z.div_mod_to_equations; lia.

Lemma mul32_noise1_key (a b : Z) :
  mul32 a MCHR_BIT_NOISE1 = mul32 b MCHR_BIT_NOISE1 <-> a mod 2 ^ 30 = b mod 2 ^ 30.
Proof. unfold MCHR_BIT_NOISE1. split; intros H; solve_mod. Qed.

Lemma add32_cancel_r (a b s : Z) :
  is_uint a -> is_uint b -> add32 a s = add32 b s -> a = b.
Proof. unfold is_uint. intros Ha Hb H. solve_mod. Qed.

Lemma hash_avalanche_inj (a b : Z) :
  is_uint a -> is_uint b -> hash_avalanche a = hash_avalanche b -> a = b.
Proof.
  intros Ha Hb H.
  rewrite <- (hash_unavalanche_avalanche a Ha), <- (hash_unavalanche_avalanche b Hb).
  now rewrite H.
Qed.

(** Two accumulators give the same hash exactly when they agree on their
    low 30 bits. *)
Lemma hash_finish_eq_iff (num num' seed : Z) :
  hash_finish num seed = hash_finish num' seed <-> num mod 2 ^ 30 = num' mod 2 ^ 30.
Proof.
  rewrite !hash_finish_split, <- mul32_noise1_key. split.
  - intros H. apply hash_avalanche_inj in H; try apply is_uint_wrap32.
    apply add32_cancel_r in H; try apply is_uint_wrap32. exact H.
  - now intros ->.
Qed.

Lemma hash_eq_iff_key (index_buffer index_buffer' : list Z) (seed : Z) :
  mchr_get_hash_uint index_buffer seed = mchr_get_hash_uint index_buffer' seed
  <-> hash_key index_buffer = hash_key index_buffer'.
Proof. apply hash_finish_eq_iff. Qed.

Lemma hash_words_step_mod (num num' w w' p q : Z) :
  num mod 2 ^ 30 = num' mod 2 ^ 30 ->
  w mod 2 ^ 30 = w' mod 2 ^ 30 ->
  add32 num (add32 (mul32 w p) q) mod 2 ^ 30
  = add32 num' (add32 (mul32 w' p) q) mod 2 ^ 30.
Proof.
  intros Hn Hw.
  assert (Hwp : (w * p) mod 2 ^ 30 = (w' * p) mod 2 ^ 30).
  { rewrite <- (Zmult_mod_idemp_l w), Hw, Zmult_mod_idemp_l. reflexivity. }
  unfold mul32. generalize dependent (w * p). generalize dependent (w' * p).
  intros wp' wp Hwp. clear Hw. solve_mod.
Qed.

Lemma hash_words_mod (ptr ptr' : list Z) :
  Forall2 (fun w w' => w mod 2 ^ 30 = w' mod 2 ^ 30) ptr ptr' ->
  forall i num num',
    num mod 2 ^ 30 = num' mod 2 ^ 30 ->
    hash_words ptr i num mod 2 ^ 30 = hash_words ptr' i num' mod 2 ^ 30.
Proof.
  induction 1 as [| w w' ptr ptr' Hw _ IH]; intros i num num' Hn.
  - exact Hn.
  - cbn [hash_words]. apply IH. now apply hash_words_step_mod.
Qed.

(** The sampler sees the buffer and the seed through the hashes of the
    successive seeds only. *)
Lemma sample_loop_lockstep
    (buffer1 buffer2 : list Z) (upper_bound zeros bits mask : Z) (fuel : nat) :
  forall seed1 seed2,
    (forall i, 0 <= i ->
       mchr_get_hash_uint buffer1 (seed1 + i) = mchr_get_hash_uint buffer2 (seed2 + i)) ->
    sample_loop buffer1 upper_bound zeros bits mask fuel seed1
    = sample_loop buffer2 upper_bound zeros bits mask fuel seed2.
Proof.
  induction fuel as [| fuel IH]; intros seed1 seed2 H; [reflexivity |].
  cbn [sample_loop]. unfold sample_step.
  pose proof (H 0 ltac:(lia)) as H0. rewrite !Z.add_0_r in H0. rewrite H0.
  destruct (_ <? upper_bound); [reflexivity |].
  destruct (scan_windows _ _ _ _ _ _); [reflexivity |].
  apply IH. intros i Hi.
  rewrite (hash_seed_congr buffer1 _ (seed1 + (1 + i))),
          (hash_seed_congr buffer2 _ (seed2 + (1 + i))).
  - apply H. lia.
  - unfold add32. rewrite wrap32_add_l. f_equal. ring.
  - unfold add32. rewrite wrap32_add_l. f_equal. ring.
Qed.

Lemma under_limit_lockstep
    (buffer1 buffer2 : list Z) (seed1 seed2 upper_bound : Z) (fuel : nat) :
  (forall i, 0 <= i ->
     mchr_get_hash_uint buffer1 (seed1 + i) = mchr_get_hash_uint buffer2 (seed2 + i)) ->
  mchr_get_hash_uint_under_limit fuel buffer1 seed1 upper_bound
  = mchr_get_hash_uint_under_limit fuel buffer2 seed2 upper_bound.
Proof.
  intros H. unfold mchr_get_hash_uint_under_limit.
  destruct (upper_bound <? 2); [reflexivity |].
  destruct (clz upper_bound); [| reflexivity].
  now apply sample_loop_lockstep.
Qed.

(** X2: the hash, and with it the bounded sampler, does not depend on the
    two highest bits of any word of the index buffer. *)
Theorem X2_hash_ignores_top_two_bits
    (index_buffer index_buffer' : list Z) (seed : Z) :
  Forall2 (fun w w' => w mod 2 ^ 30 = w' mod 2 ^ 30) index_buffer index_buffer' ->
  mchr_get_hash_uint index_buffer seed = mchr_get_hash_uint index_buffer' seed
  /\ forall fuel upper_bound,
       mchr_get_hash_uint_under_limit fuel index_buffer seed upper_bound
       = mchr_get_hash_uint_under_limit fuel index_buffer' seed upper_bound.
Proof.
  intros H.
  assert (Heq : forall s,
             mchr_get_hash_uint index_buffer s = mchr_get_hash_uint index_buffer' s).
  { intros s. apply hash_eq_iff_key. unfold hash_key. now apply hash_words_mod. }
  split; [apply Heq |].
  intros fuel upper_bound. apply under_limit_lockstep. intros i _. apply Heq.
Qed.

Lemma X2_witness :
  Forall2 (fun w w' => w mod 2 ^ 30 = w' mod 2 ^ 30)
          [5; 7] [5 + 2 ^ 30; 7 + 3 * 2 ^ 30]
  /\ mchr_get_hash_uint [5; 7] 0 = mchr_get_hash_uint [5 + 2 ^ 30; 7 + 3 * 2 ^ 30] 0.
Proof.
  assert (H : Forall2 (fun w w' => w mod 2 ^ 30 = w' mod 2 ^ 30)
                      [5; 7] [5 + 2 ^ 30; 7 + 3 * 2 ^ 30])
    by (repeat constructor).
  split; [exact H |].
  exact (proj1 (X2_hash_ignores_top_two_bits [5; 7] [5 + 2 ^ 30; 7 + 3 * 2 ^ 30] 0 H)).
Defined.

Lemma hash_key_1d (pos : Z) :
  hash_key (pack [pos]) = (pos + 0x9E3779B1) mod 2 ^ 30.
Proof.
  unfold hash_key, pack. cbn [map hash_words].
  change (prime 0) with 1. change (prime ((0 + 1) mod MCHR_PRIMES_LEN)) with 0x9E3779B1.
  solve_mod.
Qed.

(** X3: two positions have the same one-coordinate hash (for one seed,
    hence for all) exactly when they agree modulo 2^30. *)
Theorem X3_1d_collisions (pos pos' seed : Z) :
  mchr_get_1d_hash_uint pos seed = mchr_get_1d_hash_uint pos' seed
  <-> pos mod 2 ^ 30 = pos' mod 2 ^ 30.
Proof.
  unfold mchr_get_1d_hash_uint. rewrite hash_eq_iff_key, !hash_key_1d.
  split; intros H; solve_mod.
Qed.

Lemma hash_key_2d (posX posY : Z) :
  hash_key (pack [posX; posY])
  = (posX + 0x9E3779B1 + posY * 0x9E3779B1 + 0x85EBCA77) mod 2 ^ 30.
Proof.
  unfold hash_key, pack. cbn [map hash_words].
  change (prime 0) with 1. change (prime ((0 + 1) mod MCHR_PRIMES_LEN)) with 0x9E3779B1.
  change (prime (((0 + 1) mod MCHR_PRIMES_LEN + 1) mod MCHR_PRIMES_LEN))
    with 0x85EBCA77.
  solve_mod.
Qed.

(** X4: swapping the two coordinates leaves the two-coordinate hash
    unchanged exactly when they agree modulo 2^26. *)
Theorem X4_2d_swap_collisions (posX posY seed : Z) :
  mchr_get_2d_hash_uint posX posY seed = mchr_get_2d_hash_uint posY posX seed
  <-> posX mod 2 ^ 26 = posY mod 2 ^ 26.
Proof.
  unfold mchr_get_2d_hash_uint. cbv zeta. rewrite hash_eq_iff_key, !hash_key_2d.
  split; intros H; solve_mod.
Qed.

(** The accumulator is carried through the words additively. *)
Lemma hash_words_add (ptr : list Z) :
  forall i num d,
    hash_words ptr i (add32 num d) = add32 (hash_words ptr i num) d.
Proof.
  induction ptr as [| w ptr IH]; intros i num d; [reflexivity |].
  cbn [hash_words].
  set (i' := (i + 1) mod MCHR_PRIMES_LEN).
  set (t := add32 (mul32 w (prime i)) (prime i')).
  assert (E : add32 (add32 num d) t = add32 (add32 num t) d).
  { unfold add32. rewrite !wrap32_add_l. f_equal. ring. }
  rewrite E. apply IH.
Qed.

Lemma hash_words_first_succ (w : Z) (rest : list Z) :
  mul32 (hash_words (to_uint (w + 1) :: rest) 0 0) MCHR_BIT_NOISE1
  = add32 (mul32 (hash_words (to_uint w :: rest) 0 0) MCHR_BIT_NOISE1) MCHR_BIT_NOISE1.
Proof.
  cbn [hash_words]. change (prime 0) with 1.
  set (q := prime ((0 + 1) mod MCHR_PRIMES_LEN)).
  assert (E : add32 0 (add32 (mul32 (to_uint (w + 1)) 1) q)
              = add32 (add32 0 (add32 (mul32 (to_uint w) 1) q)) 1).
  { clearbody q. solve_mod. }
  rewrite E.
  rewrite hash_words_add.
  generalize (hash_words rest ((0 + 1) mod MCHR_PRIMES_LEN)
                (add32 0 (add32 (mul32 (to_uint w) 1) q))).
  intros a. unfold MCHR_BIT_NOISE1. solve_mod.
Qed.

Lemma hash_first_succ (w : Z) (rest : list Z) (seed : Z) :
  mchr_get_hash_uint (to_uint (w + 1) :: rest) seed
  = mchr_get_hash_uint (to_uint w :: rest) (add32 seed MCHR_BIT_NOISE1).
Proof.
  unfold mchr_get_hash_uint. rewrite !hash_finish_split, hash_words_first_succ.
  f_equal. unfold add32. rewrite wrap32_add_l, wrap32_add_r. f_equal. ring.
Qed.

(** X5: adding 1 to the first coordinate is the same as adding
    [MCHR_BIT_NOISE1] to the seed, for the hash and for the sampler. *)
Theorem X5_next_position_is_seed_shift
    (posX : Z) (coords : list Z) (seed : Z) :
  mchr_get_hash_uint (pack ((posX + 1) :: coords)) seed
  = mchr_get_hash_uint (pack (posX :: coords)) (add32 seed MCHR_BIT_NOISE1)
  /\ forall fuel upper_bound,
       mchr_get_hash_uint_under_limit fuel (pack ((posX + 1) :: coords)) seed upper_bound
       = mchr_get_hash_uint_under_limit fuel (pack (posX :: coords))
           (add32 seed MCHR_BIT_NOISE1) upper_bound.
Proof.
  unfold pack. cbn [map]. split; [apply hash_first_succ |].
  intros fuel upper_bound. apply under_limit_lockstep. intros i _.
  rewrite hash_first_succ. apply hash_seed_congr.
  unfold add32. rewrite wrap32_idem, wrap32_add_l. f_equal. ring.
Qed.

(** X6: for every seed the all-zero index gives four different hashes
    at the lengths 1, 2, 3 and 4. *)
Theorem X6_zero_index_differs_by_length (seed : Z) :
  NoDup [ mchr_get_1d_hash_uint 0 seed;
          mchr_get_2d_hash_uint 0 0 seed;
          mchr_get_3d_hash_uint 0 0 0 seed;
          mchr_get_4d_hash_uint 0 0 0 0 seed ].
Proof.
  unfold mchr_get_1d_hash_uint, mchr_get_2d_hash_uint,
         mchr_get_3d_hash_uint, mchr_get_4d_hash_uint. cbv zeta.
  repeat constructor; cbn [In]; intros H;
    repeat (destruct H as [H | H]; [apply hash_eq_iff_key in H; discriminate H |]);
    exact H.
Qed.

(** X7: the sampler returns within 2^32 passes of its outer loop. *)
Theorem X7_sampler_returns_within_all_seeds
    (index_buffer : list Z) (seed upper_bound : Z) :
  exists fuel r,
    (Z.of_nat fuel <= 2 ^ 32)
    /\ mchr_get_hash_uint_under_limit fuel index_buffer seed upper_bound = Returns r.
Proof.
  unfold mchr_get_hash_uint_under_limit.
  destruct (Z.ltb_spec upper_bound 2) as [Hlt | Hge].
  - exists O, 0. split; [cbn; lia | reflexivity].
  - rewrite clz_nonzero by lia.
    set (target := zero_seed (hash_words index_buffer 0 0)).
    set (n := Z.to_nat (wrap32 (target - seed))).
    destruct (sample_loop_reaches index_buffer upper_bound
                (31 - Z.log2 upper_bound) (window_bits (31 - Z.log2 upper_bound))
                (window_mask (31 - Z.log2 upper_bound)) n seed)
      as [r Hr].
    + rewrite (hash_seed_congr _ _ target).
      * unfold mchr_get_hash_uint. subst target.
        rewrite hash_finish_zero_seed, Z.land_0_l. lia.
      * subst n. rewrite Z2Nat.id by apply wrap32_range.
        rewrite wrap32_add_r. f_equal. ring.
    + apply hash_seed_congr.
    + exists (S n), r. split; [| exact Hr].
      subst n. pose proof (wrap32_range (target - seed)). lia.
Qed.

(** ** The sampler returns the first accepted window *)

Section FirstWindow.

Variable index_buffer : list Z.
Variables upper_bound zeros bits mask : Z.
Hypothesis bits_pos : 0 < bits.
Hypothesis zeros_nonneg : 0 <= zeros.

Local Abbreviation hash := (mchr_get_hash_uint index_buffer).
Local Abbreviation win := (window bits mask).

Lemma scan_windows_first (n : nat) :
  forall value bits_left,
    0 <= bits_left -> (Z.to_nat bits_left <= n)%nat ->
    match scan_windows upper_bound bits mask n value bits_left with
    | Some r =>
        exists j, 1 <= j /\ j * bits <= bits_left
                  /\ r = win value j /\ r < upper_bound
                  /\ forall j', 1 <= j' < j -> upper_bound <= win value j'
    | None =>
        forall j', 1 <= j' -> j' * bits <= bits_left -> upper_bound <= win value j'
    end.
Proof.
  induction n as [| n IH]; intros value bits_left Hleft Hn; cbn [scan_windows].
  - intros j' Hj' Hfit. nia.
  - destruct (Z.geb_spec bits_left bits) as [Hge | Hlt].
    + assert (Hw1 : Z.shiftr value bits = Z.shiftr value (1 * bits))
        by now rewrite Z.mul_1_l.
      destruct (Z.ltb_spec (Z.land (Z.shiftr value bits) mask) upper_bound)
        as [Hacc | Hrej].
      * exists 1. unfold window. rewrite <- Hw1.
        repeat split; try lia; intros j' Hj'; lia.
      * specialize (IH (Z.shiftr value bits) (bits_left - bits)
                       ltac:(lia) ltac:(lia)).
        assert (Hshift : forall j, 0 <= j ->
                   win (Z.shiftr value bits) j = win value (j + 1)).
        { intros j Hj. unfold window.
          rewrite Z.shiftr_shiftr by nia. do 2 f_equal. ring. }
        destruct (scan_windows _ _ _ n _ _) as [r |].
        -- destruct IH as (j & Hj1 & Hfit & Hr & Hlt & Hbefore).
           exists (j + 1). rewrite <- Hshift by lia.
           repeat split; try lia.
           intros j' Hj'. destruct (Z.eq_dec j' 1) as [-> | Hne].
           ++ unfold window. now rewrite <- Hw1.
           ++ replace j' with (j' - 1 + 1) by ring. rewrite <- Hshift by lia.
              apply Hbefore. lia.
        -- intros j' Hj' Hfit. destruct (Z.eq_dec j' 1) as [-> | Hne].
           ++ unfold window. now rewrite <- Hw1.
           ++ replace j' with (j' - 1 + 1) by ring. rewrite <- Hshift by lia.
              apply IH; lia.
    + intros j' Hj' Hfit. nia.
Qed.

Lemma sample_step_first (seed : Z) :
  match sample_step index_buffer upper_bound zeros bits mask seed with
  | inl r =>
      exists j, 0 <= j /\ j * bits <= zeros
                /\ r = win (hash seed) j /\ r < upper_bound
                /\ forall j', 0 <= j' < j -> upper_bound <= win (hash seed) j'
  | inr seed' =>
      seed' = add32 seed 1
      /\ forall j', 0 <= j' -> j' * bits <= zeros -> upper_bound <= win (hash seed) j'
  end.
Proof.
  unfold sample_step.
  assert (Hw0 : Z.land (hash seed) mask = win (hash seed) 0) by reflexivity.
  destruct (Z.ltb_spec (Z.land (hash seed) mask) upper_bound) as [Hacc | Hrej].
  - exists 0. repeat split; try lia; intros j' Hj'; lia.
  - pose proof (scan_windows_first (Z.to_nat zeros) (hash seed) zeros
                  zeros_nonneg ltac:(lia)) as Hscan.
    destruct (scan_windows _ _ _ _ _ _) as [r |].
    + destruct Hscan as (j & Hj1 & Hfit & Hr & Hlt & Hbefore).
      exists j. repeat split; try lia.
      intros j' Hj'. destruct (Z.eq_dec j' 0) as [-> | Hne].
      * now rewrite <- Hw0.
      * apply Hbefore. lia.
    + split; [reflexivity |].
      intros j' Hj' Hfit. destruct (Z.eq_dec j' 0) as [-> | Hne].
      * now rewrite <- Hw0.
      * apply Hscan; lia.
Qed.

Lemma sample_loop_first (fuel : nat) :
  forall seed r,
    sample_loop index_buffer upper_bound zeros bits mask fuel seed = Returns r ->
    exists i j,
      0 <= i < Z.of_nat fuel /\ 0 <= j /\ j * bits <= zeros
      /\ r = win (hash (seed + i)) j /\ r < upper_bound
      /\ forall i' j',
           0 <= i' -> 0 <= j' -> j' * bits <= zeros ->
           i' < i \/ i' = i /\ j' < j ->
           upper_bound <= win (hash (seed + i')) j'.
Proof.
  induction fuel as [| fuel IH]; intros seed r; cbn [sample_loop]; [discriminate |].
  pose proof (sample_step_first seed) as Hstep.
  destruct (sample_step _ _ _ _ _ seed) as [r0 | seed'].
  - intros [= <-]. destruct Hstep as (j & Hj & Hfit & Hr & Hlt & Hbefore).
    exists 0, j. rewrite Z.add_0_r.
    repeat split; try lia; try assumption.
    intros i' j' Hi' Hj' Hfit' [Hearlier | [-> Hjlt]]; [lia |].
    rewrite Z.add_0_r. apply Hbefore. lia.
  - destruct Hstep as [-> Hrejected]. intros Hloop.
    destruct (IH _ _ Hloop) as (i & j & Hi & Hj & Hfit & Hr & Hlt & Hbefore).
    assert (Hseed : forall k, hash (add32 seed 1 + k) = hash (seed + (k + 1))).
    { intros k. apply hash_seed_congr. unfold add32.
      rewrite wrap32_add_l. f_equal. ring. }
    exists (i + 1), j. rewrite <- Hseed.
    repeat split; try lia; try assumption.
    intros i' j' Hi' Hj' Hfit' Horder.
    destruct (Z.eq_dec i' 0) as [-> | Hne].
    + rewrite Z.add_0_r. now apply Hrejected.
    + replace i' with (i' - 1 + 1) by ring. rewrite <- Hseed.
      apply Hbefore; lia.
Qed.

End FirstWindow.

(** X8: what the sampler returns is a window of [bits] bits, inside the
    32 bits of the hash of [seed + i], below the bound, and every window
    before it (earlier seed, or same seed and lower position) is not. *)
Theorem X8_sampler_returns_first_accepted_window
    (fuel : nat) (index_buffer : list Z) (seed upper_bound r : Z) :
  2 <= upper_bound < 2 ^ 32 ->
  mchr_get_hash_uint_under_limit fuel index_buffer seed upper_bound = Returns r ->
  let bits := Z.log2 upper_bound + 1 in
  let mask := 2 ^ bits - 1 in
  exists i j,
    0 <= i < Z.of_nat fuel /\ 0 <= j /\ (j + 1) * bits <= 32
    /\ r = window bits mask (mchr_get_hash_uint index_buffer (seed + i)) j
    /\ r < upper_bound
    /\ forall i' j',
         0 <= i' -> 0 <= j' -> (j' + 1) * bits <= 32 ->
         i' < i \/ i' = i /\ j' < j ->
         upper_bound <= window bits mask (mchr_get_hash_uint index_buffer (seed + i')) j'.
Proof.
  intros Hub Hret bits mask.
  pose proof (log2_uint_range upper_bound Hub) as Hlog.
  unfold mchr_get_hash_uint_under_limit in Hret.
  destruct (Z.ltb_spec upper_bound 2); [lia |].
  rewrite clz_nonzero in Hret by lia.
  assert (Hbits : window_bits (31 - Z.log2 upper_bound) = bits)
    by (unfold window_bits; subst bits; lia).
  assert (Hmask : window_mask (31 - Z.log2 upper_bound) = mask)
    by (rewrite window_mask_ones, Hbits by lia; reflexivity).
  rewrite Hbits, Hmask in Hret.
  apply sample_loop_first in Hret; [| lia | lia].
  destruct Hret as (i & j & Hi & Hj & Hfit & Hr & Hlt & Hbefore).
  exists i, j. repeat split; try lia; try assumption.
  intros i' j' Hi' Hj' Hfit' Horder. apply Hbefore; try lia.
Qed.

(** ** The mapping to [0, 1] keeps the order of the draws *)

(** Every nonzero draw maps to a normal binary32 number. *)
Lemma zero_to_one_normal (k : Z) :
  0 < k <= 2 ^ 24 ->
  exists m e,
    mchr_priv_uint_to_zero_one k = S754_finite false m e
    /\ digits2_pos m = 24%positive
    /\ -47 <= e <= -23
    /\ Zpos m * 2 ^ (e + 48) = k * 2 ^ 24.
Proof.
  intros Hk. destruct (Z.eq_dec k (2 ^ 24)) as [-> | Hne].
  - exists 8388608%positive, (-23). repeat split; try reflexivity; lia.
  - unfold mchr_priv_uint_to_zero_one.
    destruct (Z.geb_spec k (Z.shiftl 1 24)) as [Hge | _].
    { change (Z.shiftl 1 24) with (2 ^ 24) in Hge. lia. }
    rewrite land_low24 by lia.
    destruct k as [| p | p]; try lia.
    destruct (f32_of_uint_pos p ltac:(lia)) as (m & e & -> & Hd & He & Hm).
    rewrite f32_mul_one, f32_div_pow24 by assumption.
    exists m, (e - 24). repeat split; try lia; try assumption.
    rewrite Hm, <- Z.mul_assoc, <- Z.pow_add_r by lia.
    do 2 f_equal. ring.
Qed.

Lemma mul_compare_pos (a b c : Z) : 0 < c -> (a * c ?= b * c) = (a ?= b).
Proof.
  intros Hc. destruct (Z.compare_spec a b) as [-> | H | H].
  - apply Z.compare_refl.
  - apply Z.compare_lt_iff. nia.
  - apply Z.compare_gt_iff. nia.
Qed.

(** On normal numbers of one format the comparison is the comparison of
    the values. *)
Lemma compare_normal (m1 m2 : positive) (e1 e2 s : Z) :
  digits2_pos m1 = 24%positive -> digits2_pos m2 = 24%positive ->
  0 <= e1 + s -> 0 <= e2 + s ->
  SFcompare (S754_finite false m1 e1) (S754_finite false m2 e2)
  = Some (Zpos m1 * 2 ^ (e1 + s) ?= Zpos m2 * 2 ^ (e2 + s)).
Proof.
  intros Hd1 Hd2 Hs1 Hs2. cbn [SFcompare]. f_equal.
  pose proof (digits2_pos_bounds m1) as B1. rewrite Hd1 in B1.
  pose proof (digits2_pos_bounds m2) as B2. rewrite Hd2 in B2.
  change (2 ^ (24 - 1)) with 8388608 in *. change (2 ^ 24) with 16777216 in *.
  assert (Hp1 : 0 < 2 ^ (e1 + s)) by (apply Z.pow_pos_nonneg; lia).
  assert (Hp2 : 0 < 2 ^ (e2 + s)) by (apply Z.pow_pos_nonneg; lia).
  destruct (Z.compare_spec e1 e2) as [-> | Hlt | Hgt].
  - change (Pos.compare_cont Eq m1 m2) with (Pos.compare m1 m2).
    rewrite Pos2Z.inj_compare.
    symmetry. apply mul_compare_pos. exact Hp2.
  - symmetry. apply Z.compare_lt_iff.
    assert (Hsplit : 2 ^ (e2 + s) = 2 ^ (e1 + s) * 2 ^ (e2 - e1))
      by (rewrite <- Z.pow_add_r by lia; f_equal; ring).
    rewrite Hsplit.
    assert (Hpow : 2 ^ 1 <= 2 ^ (e2 - e1)) by (apply Z.pow_le_mono_r; lia).
    change (2 ^ 1) with 2 in Hpow.
    nia.
  - symmetry. apply Z.compare_gt_iff.
    assert (Hsplit : 2 ^ (e1 + s) = 2 ^ (e2 + s) * 2 ^ (e1 - e2))
      by (rewrite <- Z.pow_add_r by lia; f_equal; ring).
    rewrite Hsplit.
    assert (Hpow : 2 ^ 1 <= 2 ^ (e1 - e2)) by (apply Z.pow_le_mono_r; lia).
    change (2 ^ 1) with 2 in Hpow.
    nia.
Qed.

Lemma zero_to_one_compare (k k' : Z) :
  0 <= k <= 2 ^ 24 -> 0 <= k' <= 2 ^ 24 ->
  SFcompare (mchr_priv_uint_to_zero_one k) (mchr_priv_uint_to_zero_one k')
  = Some (k ?= k').
Proof.
  intros Hk Hk'.
  destruct (Z.eq_dec k 0) as [-> | Hk0]; destruct (Z.eq_dec k' 0) as [-> | Hk0'].
  - reflexivity.
  - destruct (zero_to_one_normal k' ltac:(lia)) as (m & e & -> & _).
    change (mchr_priv_uint_to_zero_one 0) with (S754_zero false).
    cbn [SFcompare]. f_equal. symmetry. apply Z.compare_lt_iff. lia.
  - destruct (zero_to_one_normal k ltac:(lia)) as (m & e & -> & _).
    change (mchr_priv_uint_to_zero_one 0) with (S754_zero false).
    cbn [SFcompare]. f_equal. symmetry. apply Z.compare_gt_iff. lia.
  - destruct (zero_to_one_normal k ltac:(lia)) as (m & e & -> & Hd & He & Hv).
    destruct (zero_to_one_normal k' ltac:(lia)) as (m' & e' & -> & Hd' & He' & Hv').
    rewrite (compare_normal m m' e e' 48) by (assumption || lia).
    rewrite Hv, Hv'. f_equal. apply mul_compare_pos. reflexivity.
Qed.

(** X9: on the draws 0 .. 2^24 the mapping to [0, 1] is strictly
    increasing and injective under the comparisons of [float]. *)
Theorem X9_zero_to_one_keeps_order (k k' : Z) :
  0 <= k <= 2 ^ 24 -> 0 <= k' <= 2 ^ 24 ->
  f_lt (mchr_priv_uint_to_zero_one k) (mchr_priv_uint_to_zero_one k') = (k <? k')
  /\ SFeqb (mchr_priv_uint_to_zero_one k) (mchr_priv_uint_to_zero_one k') = (k =? k').
Proof.
  intros Hk Hk'. unfold f_lt, SFltb, SFeqb.
  rewrite zero_to_one_compare by assumption.
  destruct (Z.compare_spec k k') as [-> | H | H]; split; symmetry.
  - apply Z.ltb_irrefl.
  - apply Z.eqb_refl.
  - now apply Z.ltb_lt.
  - apply Z.eqb_neq. lia.
  - apply Z.ltb_ge. lia.
  - apply Z.eqb_neq. lia.
Qed.

(** X10: with the probability [t / 2^24], [mchr_get_chance] is [true]
    exactly when the draw is below [t]. *)
Theorem X10_chance_counts_draws_below_threshold
    (fuel : nat) (index_buffer : list Z) (seed t : Z) (b : bool) :
  0 <= t <= 2 ^ 24 ->
  mchr_get_chance fuel index_buffer seed (mchr_priv_uint_to_zero_one t) = Returns b ->
  f_scaled 24 (mchr_priv_uint_to_zero_one t) = Some t
  /\ exists k,
       mchr_get_hash_uint_under_limit fuel index_buffer seed (2 ^ 24 + 1) = Returns k
       /\ 0 <= k <= 2 ^ 24
       /\ b = (k <? t).
Proof.
  intros Ht. unfold mchr_get_chance.
  destruct (mchr_get_hash_zero_to_one fuel index_buffer seed) as [x | |] eqn:Hx;
    cbn [bind]; try discriminate.
  intros [= <-].
  destruct (zero_to_one_draw _ _ _ _ Hx) as (k & Hk & Hrange & ->).
  split; [apply (zero_to_one_value t Ht) |].
  exists k. repeat split; try assumption; try lia.
  unfold f_lt, SFltb, Z.ltb. rewrite zero_to_one_compare by assumption.
  destruct (k ?= t); reflexivity.
Qed.

(** ** Instances *)

Lemma X1_witness :
  is_uint 7 /\ is_uint 12345
  /\ seed_of_hash [130; 23] (mchr_get_hash_uint [130; 23] 7) = 7
  /\ mchr_get_hash_uint [130; 23] (seed_of_hash [130; 23] 12345) = 12345.
Proof.
  assert (Hs : is_uint 7) by (split; [lia | reflexivity]).
  assert (Hv : is_uint 12345) by (split; [lia | reflexivity]).
  pose proof (X1_hash_is_bijection_of_seeds [130; 23] 7 12345 Hs Hv)
    as (_ & _ & Hleft & Hright & _).
  exact (conj Hs (conj Hv (conj Hleft Hright))).
Defined.

Lemma X8_witness :
  2 <= 0x80000001 < 2 ^ 32
  /\ mchr_get_hash_uint_under_limit 4 [0] 1 0x80000001 = Returns 2116136060
  /\ exists i j,
       0 <= i < 4 /\ 0 <= j /\ (j + 1) * 32 <= 32
       /\ 2116136060 = window 32 (2 ^ 32 - 1) (mchr_get_hash_uint [0] (1 + i)) j
       /\ 2116136060 < 0x80000001
       /\ forall i' j',
            0 <= i' -> 0 <= j' -> (j' + 1) * 32 <= 32 ->
            i' < i \/ i' = i /\ j' < j ->
            0x80000001 <= window 32 (2 ^ 32 - 1) (mchr_get_hash_uint [0] (1 + i')) j'.
Proof.
  assert (Hub : 2 <= 0x80000001 < 2 ^ 32) by (split; [discriminate | reflexivity]).
  assert (Hret : mchr_get_hash_uint_under_limit 4 [0] 1 0x80000001 = Returns 2116136060)
    by reflexivity.
  split; [exact Hub |]. split; [exact Hret |].
  exact (X8_sampler_returns_first_accepted_window 4 [0] 1 0x80000001 2116136060
           Hub Hret).
Defined.

Lemma X9_witness :
  0 <= 3 <= 2 ^ 24 /\ 0 <= 5 <= 2 ^ 24
  /\ f_lt (mchr_priv_uint_to_zero_one 3) (mchr_priv_uint_to_zero_one 5) = true
  /\ SFeqb (mchr_priv_uint_to_zero_one 3) (mchr_priv_uint_to_zero_one 5) = false.
Proof.
  assert (H3 : 0 <= 3 <= 2 ^ 24) by (split; discriminate).
  assert (H5 : 0 <= 5 <= 2 ^ 24) by (split; discriminate).
  split; [exact H3 |]. split; [exact H5 |].
  exact (X9_zero_to_one_keeps_order 3 5 H3 H5).
Defined.

Lemma X10_witness :
  0 <= 2 ^ 23 <= 2 ^ 24
  /\ mchr_get_chance 1 [0] 0 (mchr_priv_uint_to_zero_one (2 ^ 23)) = Returns true
  /\ f_scaled 24 (mchr_priv_uint_to_zero_one (2 ^ 23)) = Some (2 ^ 23)
  /\ exists k,
       mchr_get_hash_uint_under_limit 1 [0] 0 (2 ^ 24 + 1) = Returns k
       /\ 0 <= k <= 2 ^ 24
       /\ true = (k <? 2 ^ 23).
Proof.
  assert (Ht : 0 <= 2 ^ 23 <= 2 ^ 24) by (split; discriminate).
  assert (Hc : mchr_get_chance 1 [0] 0 (mchr_priv_uint_to_zero_one (2 ^ 23))
               = Returns true) by reflexivity.
  split; [exact Ht |]. split; [exact Hc |].
  exact (X10_chance_counts_draws_below_threshold 1 [0] 0 (2 ^ 23) true Ht Hc).
Defined.

(** * Exact binary32 and binary64 arithmetic on the draws *)

Lemma pshift_value (m : positive) (c : Z) :
  0 <= c -> Zpos (pshift m c) = Zpos m * 2 ^ c.
Proof.
  intros Hc. destruct c as [| q | q]; try lia.
  - cbn. lia.
  - apply iter_xO_value.
Qed.

Lemma pshift_digits (m : positive) (c : Z) :
  0 <= c -> Zpos (digits2_pos (pshift m c)) = Zpos (digits2_pos m) + c.
Proof.
  intros Hc. destruct c as [| q | q]; try lia.
  - cbn [pshift]. lia.
  - cbn [pshift]. rewrite iter_xO_digits. lia.
Qed.

Lemma pshift_pshift (m : positive) (c d : Z) :
  0 <= c -> 0 <= d -> pshift (pshift m c) d = pshift m (c + d).
Proof.
  intros Hc Hd. apply Pos2Z.inj.
  rewrite !pshift_value, Z.pow_add_r by lia. ring.
Qed.

Lemma digits2_pos_unique (m : positive) (d : Z) :
  2 ^ (d - 1) <= Zpos m < 2 ^ d -> Zpos (digits2_pos m) = d.
Proof.
  intros [Hlo Hhi]. pose proof (digits2_pos_bounds m) as [Blo Bhi].
  assert (0 < d).
  { destruct (Z.lt_ge_cases 0 d) as [H | H]; [exact H |].
    destruct (Z.eq_dec d 0) as [-> | Hne]; [cbn in Hhi; lia |].
    rewrite Z.pow_neg_r in Hhi by lia. lia. }
  destruct (Z.lt_trichotomy (Zpos (digits2_pos m)) d) as [H1 | [H1 | H1]];
    [| exact H1 |].
  - assert (2 ^ Zpos (digits2_pos m) <= 2 ^ (d - 1)) by (apply Z.pow_le_mono_r; lia).
    lia.
  - assert (2 ^ d <= 2 ^ (Zpos (digits2_pos m) - 1)) by (apply Z.pow_le_mono_r; lia).
    lia.
Qed.

Lemma iter_pos_iter {A : Type} (f : A -> A) (n : positive) :
  forall x, iter_pos f n x = Pos.iter f x n.
Proof.
  induction n as [n IH | n IH |]; intros x; cbn [iter_pos Pos.iter].
  - rewrite !IH, <- !Pos.iter_swap. reflexivity.
  - rewrite !IH. reflexivity.
  - reflexivity.
Qed.

Lemma shr_exact (m : positive) (q : positive) :
  iter_pos shr_1 q (Build_shr_record (Zpos (Pos.iter xO m q)) false false)
  = Build_shr_record (Zpos m) false false.
Proof.
  rewrite iter_pos_iter.
  induction q as [| q IH] using Pos.peano_ind.
  - reflexivity.
  - rewrite Pos.iter_succ_r, Pos.iter_succ. cbn [shr_1 orb]. exact IH.
Qed.

Section Format.

Variables prec emax : Z.
Hypothesis prec_pos : 0 < prec.
Hypothesis prec_lt_emax : prec < emax.

(** Rounding a mantissa of [prec] digits followed by [c] zero bits. *)
Lemma round_aux_exact (s : bool) (m : positive) (c e : Z) :
  Zpos (digits2_pos m) = prec -> 0 <= c ->
  3 - emax - prec <= e + c <= emax - prec ->
  binary_round_aux prec emax s (Zpos (pshift m c)) e loc_Exact
  = S754_finite s m (e + c).
Proof.
  intros Hd Hc He.
  unfold binary_round_aux, shr_fexp. cbn [Zdigits2].
  rewrite pshift_digits, Hd by exact Hc.
  assert (Hf : fexp prec emax (prec + c + e) - e = c) by (unfold fexp, emin; lia).
  rewrite Hf.
  assert (Hshr : shr (shr_record_of_loc (Zpos (pshift m c)) loc_Exact) e c
                 = (Build_shr_record (Zpos m) false false, e + c)).
  { destruct c as [| q | q]; try lia.
    - cbn. now rewrite Z.add_0_r.
    - cbn [shr shr_record_of_loc pshift]. now rewrite shr_exact. }
  rewrite Hshr.
  cbn [shr_m loc_of_shr_record round_nearest_even Zdigits2]. rewrite Hd.
  assert (Hf2 : fexp prec emax (prec + (e + c)) - (e + c) = 0)
    by (unfold fexp, emin; lia).
  rewrite Hf2. cbn [shr shr_record_of_loc shr_m].
  destruct (Z.leb_spec (e + c) (emax - prec)); [reflexivity | lia].
Qed.

(** Rounding a value that the format holds exactly gives its normal
    number. *)
Lemma round_canon (s : bool) (a : positive) (t e : Z) :
  Zpos (digits2_pos a) <= prec -> 0 <= t ->
  3 - emax - prec <= e + t - (prec - Zpos (digits2_pos a)) <= emax - prec ->
  binary_round prec emax s (pshift a t) e = canon prec s a (e + t).
Proof.
  intros Hd Ht He. unfold canon. cbv zeta.
  set (c := prec - Zpos (digits2_pos a)) in *.
  assert (Hdn : Zpos (digits2_pos (pshift a c)) = prec)
    by (rewrite pshift_digits; lia).
  unfold binary_round, shl_align.
  rewrite pshift_digits by exact Ht.
  destruct (Z.le_gt_cases c t) as [Hle | Hgt].
  - (* the mantissa has [prec] digits or more *)
    assert (Hf : fexp prec emax (Zpos (digits2_pos a) + t + e) - e = t - c)
      by (unfold fexp, emin; lia).
    rewrite Hf.
    replace (pshift a t) with (pshift (pshift a c) (t - c))
      by (rewrite pshift_pshift by lia; f_equal; lia).
    destruct (t - c) as [| q | q] eqn:Hq; try lia.
    + cbn [pshift]. rewrite <- (Z.add_0_r e) at 1.
      change (Zpos (pshift a c)) with (Zpos (pshift (pshift a c) 0)).
      rewrite round_aux_exact by lia. f_equal. lia.
    + rewrite round_aux_exact by lia. f_equal. lia.
  - assert (Hf : fexp prec emax (Zpos (digits2_pos a) + t + e) - e = t - c)
      by (unfold fexp, emin; lia).
    rewrite Hf.
    destruct (t - c) as [| q | q] eqn:Hq; try lia.
    assert (Hfe : fexp prec emax (Zpos (digits2_pos a) + t + e) = e + t - c)
      by (unfold fexp, emin; lia).
    rewrite Hfe.
    replace (Pos.iter xO (pshift a t) q) with (pshift (pshift a c) 0).
    2:{ cbn [pshift]. change (Pos.iter xO (pshift a t) q) with (pshift (pshift a t) (Zpos q)).
        rewrite pshift_pshift by lia. f_equal. lia. }
    rewrite round_aux_exact by lia. f_equal. lia.
Qed.

End Format.

Lemma canon_full (prec : Z) (s : bool) (m : positive) (e : Z) :
  Zpos (digits2_pos m) = prec -> canon prec s m e = S754_finite s m e.
Proof.
  intros Hd. unfold canon. cbv zeta. rewrite Hd, Z.sub_diag, Z.sub_0_r. reflexivity.
Qed.

Lemma canon_digits (prec : Z) (a : positive) :
  Zpos (digits2_pos a) <= prec ->
  Zpos (digits2_pos (pshift a (prec - Zpos (digits2_pos a)))) = prec.
Proof. intros H. rewrite pshift_digits; lia. Qed.

(** ** Binary32 steps of the mappers *)

Lemma f32_of_uint_exact (p : positive) :
  Zpos p < 2 ^ 24 -> f32_of_uint (Zpos p) = canon 24 false p 0.
Proof.
  intros Hp.
  pose proof (digits2_pos_bounds p) as [Hlo _].
  assert (Hd : Zpos (digits2_pos p) <= 24).
  { destruct (Z.le_gt_cases (Zpos (digits2_pos p)) 24) as [H | H]; [exact H |].
    assert (2 ^ 24 <= 2 ^ (Zpos (digits2_pos p) - 1)) by (apply Z.pow_le_mono_r; lia).
    lia. }
  unfold f32_of_uint, binary_normalize.
  change p with (pshift p 0) at 1.
  rewrite round_canon by lia. reflexivity.
Qed.

Lemma f32_of_uint_rounded (k : Z) :
  2 ^ 24 <= k < 2 ^ 25 - 1 ->
  exists r,
    f32_of_uint k = S754_finite false r 1
    /\ Zpos (digits2_pos r) = 24
    /\ 2 * Zpos r = uint_as_float k.
Proof.
  intros Hk. unfold uint_as_float.
  destruct (Z.ltb_spec k (2 ^ 24)) as [H | _]; [lia |].
  destruct k as [| p | p]; try lia.
  assert (Hd : Zpos (digits2_pos p) = 25)
    by (apply digits2_pos_unique; change (2 ^ (25 - 1)) with (2 ^ 24); lia).
  change (2 ^ 24) with 16777216 in Hk. change (2 ^ 25) with 33554432 in Hk.
  assert (Hdq : forall q, 8388608 <= Zpos q < 16777216 -> Zpos (digits2_pos q) = 24).
  { intros q Hq. apply digits2_pos_unique. change (2 ^ (24 - 1)) with 8388608.
    change (2 ^ 24) with 16777216. lia. }
  assert (Hnorm : forall q, 8388608 <= Zpos q < 16777216 ->
            shr_fexp 24 128 (Zpos q) 1 loc_Exact
            = (Build_shr_record (Zpos q) false false, 1)).
  { intros q Hq. unfold shr_fexp. cbn [Zdigits2]. rewrite (Hdq q Hq).
    reflexivity. }
  unfold f32_of_uint, binary_normalize, binary_round, shl_align.
  assert (Hf : fexp 24 128 (Zpos (digits2_pos p) + 0) - 0 = 1)
    by (unfold fexp, emin; lia).
  rewrite Hf.
  unfold binary_round_aux at 1. unfold shr_fexp at 1. cbn [Zdigits2].
  assert (Hf1 : fexp 24 128 (Zpos (digits2_pos p) + 0) - 0 = 1) by exact Hf.
  rewrite Hf1. cbn [shr shr_record_of_loc iter_pos].
  destruct p as [q | q |]; try lia.
  - (* odd: a tie *)
    cbn [shr_1 orb shr_m loc_of_shr_record round_nearest_even Z.add].
    destruct q as [q' | q' |]; try lia.
    + (* q odd: up *)
      cbn [Z.even Z.add Pos.add Pos.succ].
      exists ((Pos.succ q')~0)%positive.
      assert (Hb : 8388608 <= Zpos (Pos.succ q')~0 < 16777216) by lia.
      split; [| split; [now apply Hdq |]].
      * change (0 + 1) with 1. rewrite (Hnorm _ Hb). reflexivity.
      * cbn [Z.even].
        Z.div_mod_to_equations; lia.
    + (* q even: down *)
      cbn [Z.even].
      exists (q'~0)%positive.
      assert (Hb : 8388608 <= Zpos q'~0 < 16777216) by lia.
      split; [| split; [now apply Hdq |]].
      * change (0 + 1) with 1. rewrite (Hnorm _ Hb). reflexivity.
      * cbn [Z.even].
        Z.div_mod_to_equations; lia.
  - (* even: exact *)
    cbn [shr_1 orb shr_m loc_of_shr_record round_nearest_even].
    exists q. assert (Hb : 8388608 <= Zpos q < 16777216) by lia.
    split; [| split; [now apply Hdq |]].
    + change (0 + 1) with 1. rewrite (Hnorm _ Hb). reflexivity.
    + cbn [Z.even]. lia.
Qed.

Lemma pmul_pow2 (m : positive) (c : Z) :
  0 <= c -> (m * pshift 1 c)%positive = pshift m c.
Proof.
  intros Hc. apply Pos2Z.inj. rewrite Pos2Z.inj_mul, !pshift_value by exact Hc. ring.
Qed.

(** [x * 1.0f] on a normal number. *)
Lemma f32_mul_one_normal (m : positive) (e : Z) :
  Zpos (digits2_pos m) = 24 -> -100 <= e <= 100 ->
  f32_mul (S754_finite false m e) f32_one = S754_finite false m e.
Proof.
  intros Hd He.
  change f32_one with (S754_finite false (pshift 1 23) (-23)).
  unfold f32_mul, SFmul. cbn [xorb]. rewrite pmul_pow2 by lia.
  rewrite round_aux_exact by lia. f_equal. lia.
Qed.

(** [x / 2^25] on a normal number. *)
Lemma f32_div_pow25 (m : positive) (e : Z) :
  Zpos (digits2_pos m) = 24 -> -100 <= e <= 100 ->
  f32_div (S754_finite false m e) (f32_of_uint (Z.shiftl 1 25))
  = S754_finite false m (e - 25).
Proof.
  intros Hd He.
  change (f32_of_uint (Z.shiftl 1 25)) with (S754_finite false 8388608 2).
  unfold f32_div, SFdiv, SFdiv_core_binary. cbn [xorb Zdigits2].
  rewrite Hd. change (Z.pos (digits2_pos 8388608)) with 24.
  assert (He' : Z.min (fexp 24 128 (24 + e - (24 + 2))) (e - 2) = e - 26)
    by (unfold fexp, emin; lia).
  rewrite He'.
  replace (e - 2 - (e - 26)) with 24 by lia.
  rewrite (div_eucl_exact _ 8388608 (Zpos (pshift m 1))); [| lia |].
  2:{ rewrite Z.shiftl_mul_pow2, pshift_value by lia.
      change (2 ^ 24) with 16777216. lia. }
  change (new_location 8388608 0) with loc_Exact.
  rewrite round_aux_exact by lia. f_equal. lia.
Qed.

(** [(double) x] on a normal [float]. *)
Lemma f64_of_f32_normal (s : bool) (m : positive) (e : Z) :
  Zpos (digits2_pos m) = 24 -> -100 <= e <= 100 ->
  f64_of_f32 (S754_finite s m e) = S754_finite s (pshift m 29) (e - 29).
Proof.
  intros Hd He. cbn [f64_of_f32].
  change m with (pshift m 0) at 1.
  rewrite round_canon by lia.
  unfold canon. cbv zeta. rewrite Hd. do 2 f_equal. lia.
Qed.

(** [x * 2.0] on a normal [double]. *)
Lemma f64_mul_two_normal (s : bool) (m : positive) (e : Z) :
  Zpos (digits2_pos m) = 53 -> -200 <= e <= 100 ->
  f64_mul (S754_finite s m e) f64_two = S754_finite s m (e + 1).
Proof.
  intros Hd He.
  change f64_two with (S754_finite false (pshift 1 52) (-51)).
  unfold f64_mul, SFmul. rewrite xorb_false_r, pmul_pow2 by lia.
  rewrite round_aux_exact by lia. f_equal. lia.
Qed.

Lemma shl_align_value (m : positive) (e e' : Z) :
  e' <= e -> Zpos (fst (shl_align m e e')) = Zpos m * 2 ^ (e - e').
Proof.
  intros Hle. unfold shl_align.
  destruct (e' - e) as [| q | q] eqn:Hq; try lia; cbn [fst].
  - replace (e - e') with 0 by lia. lia.
  - rewrite iter_xO_value. do 2 f_equal. lia.
Qed.

(** [x - 1.0] on a normal [double] [x] below 2, when the difference is
    [a * 2^t] units of the last place of [x], up to the sign. *)
Lemma f64_sub_one_normal (m a : positive) (e t : Z) (neg : bool) :
  Zpos (digits2_pos m) = 53 -> -200 <= e <= -52 ->
  Zpos (digits2_pos a) <= 53 -> 0 <= t ->
  -200 <= e + t - (53 - Zpos (digits2_pos a)) <= 100 ->
  Zpos m - 2 ^ (- e) = cond_Zopp neg (Zpos (pshift a t)) ->
  f64_sub (S754_finite false m e) f64_one = canon 53 neg a (e + t).
Proof.
  intros Hd He Hda Ht Hrange Hdiff.
  change f64_one with (S754_finite false 4503599627370496 (-52)).
  unfold f64_sub, SFsub. rewrite Z.min_l by lia. cbn [cond_Zopp].
  rewrite !shl_align_value by lia.
  rewrite Z.sub_diag, Z.mul_1_r.
  assert (Hone : 4503599627370496 * 2 ^ (-52 - e) = 2 ^ (- e)).
  { change 4503599627370496 with (2 ^ 52). rewrite <- Z.pow_add_r by lia.
    f_equal. lia. }
  rewrite Hone, Hdiff.
  destruct neg; cbn [cond_Zopp Z.opp binary_normalize]; now rewrite round_canon by lia.
Qed.

(** [(float) x] on a [double] whose value has at most 24 digits. *)
Lemma f32_of_f64_canon (s : bool) (a : positive) (e : Z) :
  Zpos (digits2_pos a) <= 24 -> -100 <= e <= 100 ->
  f32_of_f64 (canon 53 s a e) = canon 24 s a e.
Proof.
  intros Hd He. unfold canon at 1. cbv zeta. cbn [f32_of_f64].
  rewrite round_canon by lia. f_equal. lia.
Qed.

(** The value of a normal number, scaled to an integer. *)
Lemma f_scaled_canon (s : Z) (sg : bool) (a : positive) (e : Z) :
  Zpos (digits2_pos a) <= 24 -> 0 <= e + s ->
  f_scaled s (canon 24 sg a e) = Some (cond_Zopp sg (Zpos a * 2 ^ (e + s))).
Proof.
  intros Hd Hes. unfold canon, f_scaled. cbv zeta.
  set (c := 24 - Zpos (digits2_pos a)).
  rewrite pshift_value by lia.
  destruct (Z.leb_spec 0 (e - c + s)) as [Hge | Hlt].
  - do 2 f_equal. rewrite <- Z.mul_assoc, <- Z.pow_add_r by lia.
    do 2 f_equal. lia.
  - assert (Hsplit : Zpos a * 2 ^ c = Zpos a * 2 ^ (e + s) * 2 ^ (- (e - c + s))).
    { rewrite <- Z.mul_assoc, <- Z.pow_add_r by lia. do 2 f_equal. lia. }
    rewrite Hsplit, Z.mod_mul, Z.eqb_refl, Z.div_mul; try reflexivity.
    + apply Z.pow_nonzero; lia.
    + apply Z.pow_nonzero; lia.
Qed.

Lemma canon_exponent_below (sg : bool) (a : positive) (e : Z) :
  Zpos (digits2_pos a) <= 24 ->
  exists m e',
    canon 24 sg a e = S754_finite sg m e' /\ e' = e - (24 - Zpos (digits2_pos a)).
Proof. intros Hd. unfold canon. cbv zeta. eauto. Qed.

(** Normal numbers of magnitude below 1 lie between [-1.0f] and [1.0f]. *)
Lemma small_between_ones (sg : bool) (m : positive) (e : Z) :
  e < -23 ->
  f_lt (S754_finite sg m e) f32_minus_one = false
  /\ f_lt f32_one (S754_finite sg m e) = false.
Proof.
  intros He.
  change f32_minus_one with (S754_finite true 8388608 (-23)).
  change f32_one with (S754_finite false 8388608 (-23)).
  unfold f_lt, SFltb, SFcompare.
  destruct sg; split; try reflexivity.
  - destruct (Z.compare_spec e (-23)); try lia; reflexivity.
  - destruct (Z.compare_spec (-23) e); try lia; reflexivity.
Qed.

Lemma digits2_pos_le (m : positive) (n : Z) :
  Zpos m < 2 ^ n -> Zpos (digits2_pos m) <= n.
Proof.
  intros Hm. pose proof (digits2_pos_bounds m) as [Hlo _].
  destruct (Z.le_gt_cases (Zpos (digits2_pos m)) n) as [H | H]; [exact H |].
  destruct (Z.lt_ge_cases n 0) as [Hn | Hn].
  - rewrite Z.pow_neg_r in Hm by exact Hn. lia.
  - assert (2 ^ n <= 2 ^ (Zpos (digits2_pos m) - 1)) by (apply Z.pow_le_mono_r; lia).
    lia.
Qed.

Lemma land_low25 (k : Z) : 0 <= k < 2 ^ 25 -> Z.land k (Z.shiftl 1 25 - 1) = k.
Proof.
  intros Hk. change (Z.shiftl 1 25 - 1) with (Z.ones 25).
  rewrite Z.land_ones by lia. now apply Z.mod_small.
Qed.

(** Draws below 2^24: the result is [-(2^24 - k) / 2^24]. *)
Lemma neg_one_one_low (k : Z) :
  0 < k < 2 ^ 24 ->
  exists b,
    mchr_priv_uint_to_neg_one_one k = canon 24 true b (-24)
    /\ Zpos b = 2 ^ 24 - k.
Proof.
  intros Hk. destruct k as [| p | p]; try lia.
  set (b := Z.to_pos (2 ^ 24 - Zpos p)).
  assert (Hb : Zpos b = 2 ^ 24 - Zpos p) by (subst b; rewrite Z2Pos.id; lia).
  exists b. split; [| exact Hb].
  assert (Hdp : Zpos (digits2_pos p) <= 24) by (apply digits2_pos_le; lia).
  assert (Hdb : Zpos (digits2_pos b) <= 24) by (apply digits2_pos_le; lia).
  pose proof (Pos2Z.is_pos (digits2_pos p)) as Hdp0.
  pose proof (Pos2Z.is_pos (digits2_pos b)) as Hdb0.
  unfold mchr_priv_uint_to_neg_one_one. cbv zeta.
  rewrite land_low25 by (change (2 ^ 25) with (2 * 2 ^ 24); lia).
  rewrite f32_of_uint_exact by lia. unfold canon at 1. cbv zeta.
  set (c := 24 - Zpos (digits2_pos p)).
  assert (HdM : Zpos (digits2_pos (pshift p c)) = 24) by (apply canon_digits; lia).
  rewrite f32_mul_one_normal, f32_div_pow25, f64_of_f32_normal by lia.
  assert (HdM1 : Zpos (digits2_pos (pshift (pshift p c) 29)) = 53)
    by (rewrite pshift_digits; lia).
  rewrite f64_mul_two_normal by lia.
  rewrite (f64_sub_one_normal _ b _ (29 + c) true); try lia.
  - replace (0 - c - 25 - 29 + 1 + (29 + c)) with (-24) by lia.
    apply f32_of_f64_canon; lia.
  - cbn [cond_Zopp]. rewrite !pshift_value, Hb by lia.
    replace (- (0 - c - 25 - 29 + 1)) with (24 + (29 + c)) by lia.
    rewrite (Z.pow_add_r 2 24), (Z.pow_add_r 2 29 c) by lia. ring.
Qed.

(** Draws from 2^24 on, the last one apart: the result is
    [(v - 2^24) / 2^24] for the rounded draw [v]. *)
Lemma neg_one_one_high (k : Z) :
  2 ^ 24 <= k < 2 ^ 25 - 1 ->
  mchr_priv_uint_to_neg_one_one k = S754_zero false /\ uint_as_float k = 2 ^ 24
  \/ exists a,
       mchr_priv_uint_to_neg_one_one k = canon 24 false a (-23)
       /\ 2 * Zpos a = uint_as_float k - 2 ^ 24
       /\ Zpos a < 2 ^ 23.
Proof.
  intros Hk.
  destruct (f32_of_uint_rounded k Hk) as (r & Hconv & Hdr & Hr).
  pose proof (digits2_pos_bounds r) as Br. rewrite Hdr in Br.
  change (2 ^ (24 - 1)) with (2 ^ 23) in Br.
  unfold mchr_priv_uint_to_neg_one_one. cbv zeta.
  rewrite land_low25 by lia. rewrite Hconv.
  rewrite f32_mul_one_normal, f32_div_pow25, f64_of_f32_normal by lia.
  destruct (Z.eq_dec (Zpos r) (2 ^ 23)) as [Heq | Hne].
  - left. assert (r = 8388608%positive) by (apply Pos2Z.inj; exact Heq). subst r.
    split; [reflexivity | lia].
  - right.
    set (a := Z.to_pos (Zpos r - 2 ^ 23)).
    assert (Ha : Zpos a = Zpos r - 2 ^ 23) by (subst a; rewrite Z2Pos.id; lia).
    assert (Hda : Zpos (digits2_pos a) <= 23) by (apply digits2_pos_le; lia).
    pose proof (Pos2Z.is_pos (digits2_pos a)) as Hda0.
    exists a. split; [| split; lia].
    assert (HdM1 : Zpos (digits2_pos (pshift r 29)) = 53)
      by (rewrite pshift_digits; lia).
    rewrite f64_mul_two_normal by lia.
    rewrite (f64_sub_one_normal _ a _ 29 false); try lia.
    + replace (1 - 25 - 29 + 1 + 29) with (-23) by lia.
      apply f32_of_f64_canon; lia.
    + cbn [cond_Zopp]. rewrite !pshift_value, Ha by lia.
      replace (- (1 - 25 - 29 + 1)) with 52 by lia.
      change (2 ^ 52) with (2 ^ 23 * 2 ^ 29). ring.
Qed.

Lemma neg_one_one_value (k : Z) :
  0 <= k < 2 ^ 25 ->
  f_scaled 24 (mchr_priv_uint_to_neg_one_one k) = Some (uint_as_float k - 2 ^ 24)
  /\ f_lt (mchr_priv_uint_to_neg_one_one k) f32_minus_one = false
  /\ f_lt f32_one (mchr_priv_uint_to_neg_one_one k) = false.
Proof.
  intros Hk.
  destruct (Z.eq_dec k 0) as [-> | Hk0]; [repeat split; reflexivity |].
  destruct (Z.eq_dec k (2 ^ 25 - 1)) as [-> | Hlast]; [repeat split; reflexivity |].
  destruct (Z.lt_ge_cases k (2 ^ 24)) as [Hlow | Hhigh].
  - destruct (neg_one_one_low k ltac:(lia)) as (b & -> & Hb).
    assert (Hdb : Zpos (digits2_pos b) <= 24) by (apply digits2_pos_le; lia).
    split.
    + rewrite f_scaled_canon by lia. cbn [cond_Zopp]. f_equal.
      unfold uint_as_float. destruct (Z.ltb_spec k (2 ^ 24)); [| lia].
      change (2 ^ (-24 + 24)) with 1. lia.
    + destruct (canon_exponent_below true b (-24) Hdb) as (m & e' & -> & He').
      apply small_between_ones. lia.
  - destruct (neg_one_one_high k ltac:(lia)) as [[-> Hv] | (a & -> & Ha & Hlt)].
    + rewrite Hv. repeat split; reflexivity.
    + assert (Hda : Zpos (digits2_pos a) <= 23) by (apply digits2_pos_le; lia).
      split.
      * rewrite f_scaled_canon by lia. cbn [cond_Zopp]. f_equal.
        change (2 ^ (-23 + 24)) with 2. lia.
      * destruct (canon_exponent_below false a (-23) ltac:(lia)) as (m & e' & -> & He').
        apply small_between_ones. lia.
Qed.

(** [uint_as_float] is the value of the conversion. *)
Lemma uint_as_float_conversion (k : Z) :
  0 <= k < 2 ^ 25 -> f_scaled 0 (f32_of_uint k) = Some (uint_as_float k).
Proof.
  intros Hk.
  destruct (Z.eq_dec k 0) as [-> | Hk0]; [reflexivity |].
  destruct (Z.eq_dec k (2 ^ 25 - 1)) as [-> | Hlast]; [reflexivity |].
  destruct (Z.lt_ge_cases k (2 ^ 24)) as [Hlow | Hhigh].
  - destruct k as [| p | p]; try lia.
    rewrite f32_of_uint_exact by lia.
    rewrite f_scaled_canon by (try apply digits2_pos_le; lia).
    unfold uint_as_float. destruct (Z.ltb_spec (Zpos p) (2 ^ 24)); [| lia].
    cbn [cond_Zopp]. f_equal. change (2 ^ (0 + 0)) with 1. lia.
  - destruct (f32_of_uint_rounded k ltac:(lia)) as (r & -> & _ & Hr).
    cbn [f_scaled]. change (0 <=? 1 + 0) with true. cbn [cond_Zopp].
    f_equal. change (2 ^ (1 + 0)) with 2. lia.
Qed.

Lemma uint_as_float_near (k : Z) :
  0 <= k < 2 ^ 25 ->
  k - 1 <= uint_as_float k <= k + 1
  /\ (k < 2 ^ 24 \/ Z.even k = true -> uint_as_float k = k)
  /\ 0 <= uint_as_float k <= 2 ^ 25.
Proof.
  intros Hk. unfold uint_as_float.
  change (2 ^ 24) with 16777216 in *. change (2 ^ 25) with 33554432 in *.
  destruct (Z.ltb_spec k 16777216); [lia |].
  destruct (Z.even k) eqn:Hev; [lia |].
  assert (Hodd : Z.odd k = true) by (rewrite <- Z.negb_even, Hev; reflexivity).
  apply Z.odd_spec in Hodd. destruct Hodd as [x Hx].
  repeat split; try (intros [H1 | H1]; [lia | discriminate]);
    Z.div_mod_to_equations; lia.
Qed.

Lemma neg_one_to_one_total (index_buffer : list Z) (seed : Z) :
  exists fuel x, mchr_get_hash_neg_one_to_one fuel index_buffer seed = Returns x.
Proof.
  destruct (under_limit_total index_buffer seed (Z.shiftl 1 25)) as (fuel & r & Hr).
  exists fuel, (mchr_priv_uint_to_neg_one_one r).
  unfold mchr_get_hash_neg_one_to_one. now rewrite Hr.
Qed.

(** X11: [mchr_get_hash_neg_one_to_one] returns; what it returns is the
    image of a draw [k] of the bounded sampler for [2^25]; its value is
    exactly [(v - 2^24) / 2^24], where [v] is [k] as the conversion to
    [float] rounds it ([k] itself below 2^24 and for even [k], otherwise
    one more or one less); it is neither below [-1.0] nor above [1.0]. *)
Theorem X11_neg_one_to_one_closed_interval (index_buffer : list Z) (seed : Z) :
  (exists fuel x, mchr_get_hash_neg_one_to_one fuel index_buffer seed = Returns x)
  /\ forall fuel x,
       mchr_get_hash_neg_one_to_one fuel index_buffer seed = Returns x ->
       exists k,
         mchr_get_hash_uint_under_limit fuel index_buffer seed (2 ^ 25) = Returns k
         /\ 0 <= k < 2 ^ 25
         /\ x = mchr_priv_uint_to_neg_one_one k
         /\ f_scaled 0 (f32_of_uint k) = Some (uint_as_float k)
         /\ k - 1 <= uint_as_float k <= k + 1
         /\ (k < 2 ^ 24 \/ Z.even k = true -> uint_as_float k = k)
         /\ f_scaled 24 x = Some (uint_as_float k - 2 ^ 24)
         /\ f_lt x f32_minus_one = false
         /\ f_lt f32_one x = false.
Proof.
  split; [apply neg_one_to_one_total |].
  intros fuel x. unfold mchr_get_hash_neg_one_to_one.
  change (Z.shiftl 1 25) with (2 ^ 25).
  destruct (mchr_get_hash_uint_under_limit _ _ _ _) as [k | |] eqn:Hk;
    cbn [bind]; try discriminate.
  intros [= <-].
  apply under_limit_range in Hk; [| lia].
  destruct (neg_one_one_value k Hk) as (Hv & Hlo & Hhi).
  destruct (uint_as_float_near k Hk) as (Hnear & Hsame & _).
  exists k. repeat split; try assumption; try lia.
  now apply uint_as_float_conversion.
Qed.

(** ** Draws that share a float *)

Lemma uint_as_float_odd (t : Z) :
  2 ^ 24 <= 4 * t - 1 -> 4 * t + 1 < 2 ^ 25 ->
  uint_as_float (4 * t - 1) = 4 * t
  /\ uint_as_float (4 * t) = 4 * t
  /\ uint_as_float (4 * t + 1) = 4 * t
  /\ uint_as_float (4 * t + 2) = 4 * t + 2.
Proof.
  intros Hlo Hhi. unfold uint_as_float.
  change (2 ^ 24) with 16777216 in *. change (2 ^ 25) with 33554432 in *.
  repeat match goal with
         | |- context [?k <? 16777216] => destruct (Z.ltb_spec k 16777216); [lia |]
         end.
  assert (E1 : Z.even (4 * t - 1) = false).
  { replace (4 * t - 1) with (1 + 2 * (2 * t - 1)) by ring.
    now rewrite Z.even_add_mul_2. }
  assert (E2 : Z.even (4 * t) = true).
  { replace (4 * t) with (0 + 2 * (2 * t)) by ring. now rewrite Z.even_add_mul_2. }
  assert (E3 : Z.even (4 * t + 1) = false).
  { replace (4 * t + 1) with (1 + 2 * (2 * t)) by ring.
    now rewrite Z.even_add_mul_2. }
  assert (E4 : Z.even (4 * t + 2) = true).
  { replace (4 * t + 2) with (0 + 2 * (2 * t + 1)) by ring.
    now rewrite Z.even_add_mul_2. }
  rewrite E1, E2, E3, E4.
  repeat split; try reflexivity; Z.div_mod_to_equations; lia.
Qed.

Lemma f32_of_uint_same (k k' : Z) :
  2 ^ 24 <= k < 2 ^ 25 - 1 -> 2 ^ 24 <= k' < 2 ^ 25 - 1 ->
  uint_as_float k = uint_as_float k' -> f32_of_uint k = f32_of_uint k'.
Proof.
  intros Hk Hk' Heq.
  destruct (f32_of_uint_rounded k Hk) as (r & -> & _ & Hr).
  destruct (f32_of_uint_rounded k' Hk') as (r' & -> & _ & Hr').
  f_equal. apply Pos2Z.inj. lia.
Qed.

Lemma neg_one_one_same (k k' : Z) :
  2 ^ 24 <= k < 2 ^ 25 - 1 -> 2 ^ 24 <= k' < 2 ^ 25 - 1 ->
  uint_as_float k = uint_as_float k' ->
  mchr_priv_uint_to_neg_one_one k = mchr_priv_uint_to_neg_one_one k'.
Proof.
  intros Hk Hk' Heq. unfold mchr_priv_uint_to_neg_one_one. cbv zeta.
  rewrite !land_low25 by lia.
  now rewrite (f32_of_uint_same k k' Hk Hk' Heq).
Qed.

(** X12: in the upper half of the draws the conversion to [float] rounds:
    the draws [4t - 1], [4t] and [4t + 1] give the same result, which the
    draw [4t + 2] does not give. *)
Theorem X12_neg_one_to_one_merges_draws (t : Z) :
  2 ^ 24 <= 4 * t - 1 -> 4 * t + 2 < 2 ^ 25 - 1 ->
  mchr_priv_uint_to_neg_one_one (4 * t - 1) = mchr_priv_uint_to_neg_one_one (4 * t)
  /\ mchr_priv_uint_to_neg_one_one (4 * t + 1) = mchr_priv_uint_to_neg_one_one (4 * t)
  /\ mchr_priv_uint_to_neg_one_one (4 * t + 2) <> mchr_priv_uint_to_neg_one_one (4 * t).
Proof.
  intros Hlo Hhi.
  destruct (uint_as_float_odd t Hlo ltac:(lia)) as (U1 & U2 & U3 & U4).
  split; [| split].
  - apply neg_one_one_same; lia.
  - apply neg_one_one_same; lia.
  - intros Heq.
    destruct (neg_one_one_value (4 * t + 2) ltac:(lia)) as (V1 & _).
    destruct (neg_one_one_value (4 * t) ltac:(lia)) as (V2 & _).
    rewrite Heq, V2, U2, U4 in V1. injection V1. lia.
Qed.

Lemma X12_witness :
  2 ^ 24 <= 4 * 4194305 - 1 /\ 4 * 4194305 + 2 < 2 ^ 25 - 1
  /\ mchr_priv_uint_to_neg_one_one 16777219 = mchr_priv_uint_to_neg_one_one 16777220
  /\ mchr_priv_uint_to_neg_one_one 16777221 = mchr_priv_uint_to_neg_one_one 16777220
  /\ mchr_priv_uint_to_neg_one_one 16777222 <> mchr_priv_uint_to_neg_one_one 16777220.
Proof.
  assert (Hlo : 2 ^ 24 <= 4 * 4194305 - 1) by discriminate.
  assert (Hhi : 4 * 4194305 + 2 < 2 ^ 25 - 1) by reflexivity.
  split; [exact Hlo |]. split; [exact Hhi |].
  exact (X12_neg_one_to_one_merges_draws 4194305 Hlo Hhi).
Defined.

(** ** Every value below the bound is returned for some seed *)

Lemma land_window_mask (upper_bound target : Z) :
  2 <= upper_bound < 2 ^ 32 -> 0 <= target < upper_bound ->
  Z.land target (window_mask (31 - Z.log2 upper_bound)) = target.
Proof.
  intros Hub Ht.
  pose proof (log2_uint_range upper_bound Hub) as Hlog.
  destruct (Z.log2_spec upper_bound ltac:(lia)) as [_ Hhi].
  rewrite window_mask_ones by lia.
  replace (window_bits (31 - Z.log2 upper_bound)) with (Z.succ (Z.log2 upper_bound))
    by (unfold window_bits; lia).
  replace (2 ^ Z.succ (Z.log2 upper_bound) - 1)
    with (Z.ones (Z.succ (Z.log2 upper_bound))) by (rewrite Z.ones_equiv; lia).
  rewrite Z.land_ones by lia.
  apply Z.mod_small. lia.
Qed.

Lemma under_limit_hits (index_buffer : list Z) (upper_bound target : Z) :
  2 <= upper_bound < 2 ^ 32 -> 0 <= target < upper_bound ->
  mchr_get_hash_uint_under_limit 1 index_buffer
    (seed_of_hash index_buffer target) upper_bound = Returns target.
Proof.
  intros Hub Ht. unfold mchr_get_hash_uint_under_limit.
  destruct (Z.ltb_spec upper_bound 2); [lia |].
  rewrite clz_nonzero by lia. cbn [sample_loop]. unfold sample_step.
  rewrite hash_seed_of_hash by (unfold is_uint; lia).
  rewrite land_window_mask by assumption.
  destruct (Z.ltb_spec target upper_bound); [reflexivity | lia].
Qed.

(** X13: the bounded sampler and the range functions are onto: every
    value below the bound, and every value of a closed range that is not
    the whole type, is what they return on some seed, whatever the index
    buffer. *)
Theorem X13_every_value_is_drawn
    (index_buffer : list Z) (upper_bound target umin umax uv imin imax iv : Z) :
  2 <= upper_bound < 2 ^ 32 -> 0 <= target < upper_bound ->
  is_uint umin -> is_uint umax -> umin <= uv <= umax -> umin < umax ->
  umax - umin + 1 < 2 ^ 32 ->
  is_int imin -> is_int imax -> imin <= iv <= imax -> imin < imax ->
  imax - imin + 1 < 2 ^ 32 ->
  (exists seed,
      is_uint seed
      /\ mchr_get_hash_uint_under_limit 1 index_buffer seed upper_bound = Returns target)
  /\ (exists seed,
         is_uint seed
         /\ mchr_get_hash_uint_in_range 1 index_buffer seed umin umax = Returns uv)
  /\ (exists seed,
         is_uint seed
         /\ mchr_get_hash_int_in_range 1 index_buffer seed imin imax = Returns iv).
Proof.
  intros Hub Ht Humin Humax Huv Hult Husize Himin Himax Hiv Hilt Hisize.
  split; [| split].
  - exists (seed_of_hash index_buffer target).
    split; [apply is_uint_wrap32 | now apply under_limit_hits].
  - exists (seed_of_hash index_buffer (uv - umin)).
    split; [apply is_uint_wrap32 |].
    unfold mchr_get_hash_uint_in_range.
    assert (Hsize : add32 (sub32 umax umin) 1 = umax - umin + 1)
      by (clear - Humin Humax Hult Husize; solve32).
    rewrite Hsize, under_limit_hits by lia. cbn [bind]. f_equal.
    clear - Humin Humax Huv. solve32.
  - exists (seed_of_hash index_buffer (iv - imin)).
    split; [apply is_uint_wrap32 |].
    unfold mchr_get_hash_int_in_range.
    assert (Hsize : to_uint (to_int (to_int (imax - imin) + 1)) = imax - imin + 1)
      by (clear - Himin Himax Hilt Hisize; solve32).
    rewrite Hsize, under_limit_hits by lia. cbn [bind]. f_equal.
    clear - Himin Himax Hiv. solve32.
Qed.

Lemma X13_witness :
  (2 <= 10 < 2 ^ 32 /\ 0 <= 7 < 10)
  /\ (is_uint 0 /\ is_uint 9 /\ 0 <= 9 <= 9 /\ 0 < 9 /\ 9 - 0 + 1 < 2 ^ 32)
  /\ (is_int (-5) /\ is_int 4 /\ -5 <= -5 <= 4 /\ -5 < 4 /\ 4 - -5 + 1 < 2 ^ 32)
  /\ (exists seed,
         is_uint seed
         /\ mchr_get_hash_uint_under_limit 1 [130; 23] seed 10 = Returns 7)
  /\ (exists seed,
         is_uint seed
         /\ mchr_get_hash_uint_in_range 1 [130; 23] seed 0 9 = Returns 9)
  /\ (exists seed,
         is_uint seed
         /\ mchr_get_hash_int_in_range 1 [130; 23] seed (-5) 4 = Returns (-5)).
Proof.
  assert (Hub : 2 <= 10 < 2 ^ 32) by (split; [discriminate | reflexivity]).
  assert (Ht : 0 <= 7 < 10) by (split; [discriminate | reflexivity]).
  assert (Hu0 : is_uint 0) by (split; [discriminate | reflexivity]).
  assert (Hu9 : is_uint 9) by (split; [discriminate | reflexivity]).
  assert (Huv : 0 <= 9 <= 9) by (split; discriminate).
  assert (Hult : 0 < 9) by reflexivity.
  assert (Hus : 9 - 0 + 1 < 2 ^ 32) by reflexivity.
  assert (Hi5 : is_int (-5)) by (split; [discriminate | reflexivity]).
  assert (Hi4 : is_int 4) by (split; [discriminate | reflexivity]).
  assert (Hiv : -5 <= -5 <= 4) by (split; discriminate).
  assert (Hilt : -5 < 4) by reflexivity.
  assert (His : 4 - -5 + 1 < 2 ^ 32) by reflexivity.
  split; [exact (conj Hub Ht) |].
  split; [exact (conj Hu0 (conj Hu9 (conj Huv (conj Hult Hus)))) |].
  split; [exact (conj Hi5 (conj Hi4 (conj Hiv (conj Hilt His)))) |].
  exact (X13_every_value_is_drawn [130; 23] 10 7 0 9 9 (-5) 4 (-5)
           Hub Ht Hu0 Hu9 Huv Hult Hus Hi5 Hi4 Hiv Hilt His).
Defined.

(** ** Words six positions apart *)

Lemma hash_words_sum (ptr : list Z) :
  forall i num, wrap32 (hash_words ptr i num) = wrap32 (num + words_sum ptr i).
Proof.
  induction ptr as [| w ptr IH]; intros i num; cbn [hash_words words_sum].
  - now rewrite Z.add_0_r.
  - rewrite IH. unfold add32, mul32.
    generalize (words_sum ptr ((i + 1) mod MCHR_PRIMES_LEN)).
    generalize (prime ((i + 1) mod MCHR_PRIMES_LEN)). generalize (w * prime i).
    intros wp q rest. unfold wrap32. change (2 ^ 32) with 4294967296.
    Z.div_mod_to_equations. lia.
Qed.

Lemma words_sum_app (a rest : list Z) :
  forall i,
    0 <= i < MCHR_PRIMES_LEN ->
    words_sum (a ++ rest) i
    = words_sum a i + words_sum rest ((i + Z.of_nat (length a)) mod MCHR_PRIMES_LEN).
Proof.
  induction a as [| w a IH]; intros i Hi.
  - cbn [app words_sum length]. change (Z.of_nat 0) with 0.
    rewrite Z.add_0_r, Z.mod_small by exact Hi. reflexivity.
  - cbn [app words_sum length].
    rewrite IH by (apply Z.mod_pos_bound; reflexivity).
    rewrite Nat2Z.inj_succ, Zplus_mod_idemp_l.
    replace (i + 1 + Z.of_nat (length a)) with (i + Z.succ (Z.of_nat (length a)))
      by lia.
    ring.
Qed.

Lemma words_sum_exchange (b c : list Z) (x y i : Z) :
  0 <= i < MCHR_PRIMES_LEN ->
  (Z.of_nat (length b) + 1) mod MCHR_PRIMES_LEN = 0 ->
  words_sum (x :: b ++ y :: c) i = words_sum (y :: b ++ x :: c) i.
Proof.
  intros Hi Hlen. cbn [words_sum].
  set (i1 := (i + 1) mod MCHR_PRIMES_LEN).
  assert (Hi1 : 0 <= i1 < MCHR_PRIMES_LEN) by (apply Z.mod_pos_bound; reflexivity).
  assert (Hback : (i1 + Z.of_nat (length b)) mod MCHR_PRIMES_LEN = i).
  { subst i1. unfold MCHR_PRIMES_LEN in *. rewrite Zplus_mod_idemp_l.
    Z.div_mod_to_equations. lia. }
  rewrite !words_sum_app by exact Hi1.
  cbn [words_sum]. rewrite Hback. ring.
Qed.

(** X14: the table of multipliers has period 6: exchanging two words of
    the index buffer whose positions differ by a multiple of 6 does not
    change the hash. *)
Theorem X14_words_six_apart_exchange (a b c : list Z) (x y seed : Z) :
  (Z.of_nat (length b) + 1) mod 6 = 0 ->
  mchr_get_hash_uint (a ++ x :: b ++ y :: c) seed
  = mchr_get_hash_uint (a ++ y :: b ++ x :: c) seed.
Proof.
  intros Hlen. apply hash_eq_iff_key. unfold hash_key.
  assert (E : wrap32 (hash_words (a ++ x :: b ++ y :: c) 0 0)
              = wrap32 (hash_words (a ++ y :: b ++ x :: c) 0 0)).
  { rewrite !hash_words_sum, !words_sum_app by (split; [lia | reflexivity]).
    rewrite (words_sum_exchange b c x y); [reflexivity | | exact Hlen].
    apply Z.mod_pos_bound. reflexivity. }
  revert E.
  generalize (hash_words (a ++ x :: b ++ y :: c) 0 0)
             (hash_words (a ++ y :: b ++ x :: c) 0 0).
  intros u v E. unfold wrap32 in E.
  change (2 ^ 32) with 4294967296 in E. change (2 ^ 30) with 1073741824.
  Z.div_mod_to_equations. lia.
Qed.

Lemma X14_witness :
  (Z.of_nat (length [1; 2; 3; 4; 5]) + 1) mod 6 = 0
  /\ mchr_get_hash_uint ([7] ++ 10 :: [1; 2; 3; 4; 5] ++ 20 :: [8]) 0
     = mchr_get_hash_uint ([7] ++ 20 :: [1; 2; 3; 4; 5] ++ 10 :: [8]) 0.
Proof.
  assert (H : (Z.of_nat (length [1; 2; 3; 4; 5]) + 1) mod 6 = 0) by reflexivity.
  split; [exact H |].
  exact (X14_words_six_apart_exchange [7] [1; 2; 3; 4; 5] [8] 10 20 0 H).
Defined.
